(** * Scoring and classification engine of the futures scanner

    A shallow embedding of the indicator library (the module the route
    imports as [@/lib/indicators]) and of [src/app/api/scan/route.ts]
    (evaluator, classifier, composite scorer and ranking funnel), followed by
    the properties the specification states about them.

    Numbers.  A JavaScript [number] is modelled as an exact rational extended
    with [+Infinity], [-Infinity] and [NaN].  Rounding of the binary64 format
    and the sign of zero are not modelled: arithmetic on finite values is the
    exact arithmetic of [Q], and a division by zero produces an infinity or
    [NaN] as in the language. *)

From Stdlib Require Import QArith Qabs Qminmax Qround ZArith Lia Lqa.
From Stdlib Require Import String Ascii DecimalString Bool List Permutation Sorted.
From Stdlib Require Import Morphisms Setoid.
Import ListNotations.

Local Open Scope Q_scope.

(** ** JavaScript numbers *)

Module JS.

Inductive num : Type :=
| Fin (q : Q)
| PInf
| NInf
| NaN.

Definition zero : num := Fin 0.
Definition one : num := Fin 1.

Definition of_nat (n : nat) : num := Fin (inject_Z (Z.of_nat n)).

(** [Number.isFinite] *)
Definition isFinite (x : num) : bool :=
  match x with Fin _ => true | _ => false end.

Definition Qltb (a b : Q) : bool := negb (Qle_bool b a).

(** Unary minus. *)
Definition neg (x : num) : num :=
  match x with
  | Fin q => Fin (- q)
  | PInf => NInf
  | NInf => PInf
  | NaN => NaN
  end.

(** [x + y] *)
Definition add (x y : num) : num :=
  match x, y with
  | NaN, _ | _, NaN => NaN
  | Fin a, Fin b => Fin (a + b)
  | PInf, NInf | NInf, PInf => NaN
  | PInf, _ | _, PInf => PInf
  | NInf, _ | _, NInf => NInf
  end.

(** [x - y] *)
Definition sub (x y : num) : num := add x (neg y).

(** The sign of an infinity multiplied or divided by a finite value. *)
Definition signed_inf (positive : bool) : num :=
  if positive then PInf else NInf.

(** [x * y] *)
Definition mul (x y : num) : num :=
  match x, y with
  | NaN, _ | _, NaN => NaN
  | Fin a, Fin b => Fin (a * b)
  | PInf, PInf | NInf, NInf => PInf
  | PInf, NInf | NInf, PInf => NInf
  | PInf, Fin a | Fin a, PInf =>
      if Qeq_bool a 0 then NaN else signed_inf (Qltb 0 a)
  | NInf, Fin a | Fin a, NInf =>
      if Qeq_bool a 0 then NaN else signed_inf (Qltb a 0)
  end.

(** [x / y]; a zero divisor counts as [+0]. *)
Definition div (x y : num) : num :=
  match x, y with
  | NaN, _ | _, NaN => NaN
  | Fin a, Fin b =>
      if Qeq_bool b 0
      then (if Qeq_bool a 0 then NaN else signed_inf (Qltb 0 a))
      else Fin (a / b)
  | Fin _, _ => Fin 0
  | PInf, Fin b => signed_inf (Qle_bool 0 b)
  | NInf, Fin b => signed_inf (Qltb b 0)
  | _, _ => NaN
  end.

(** [x < y]; every comparison with [NaN] is false. *)
Definition lt (x y : num) : bool :=
  match x, y with
  | NaN, _ | _, NaN => false
  | Fin a, Fin b => Qltb a b
  | NInf, NInf | PInf, _ | _, NInf => false
  | NInf, _ | _, PInf => true
  end.

(** [x === y] *)
Definition eq (x y : num) : bool :=
  match x, y with
  | Fin a, Fin b => Qeq_bool a b
  | PInf, PInf | NInf, NInf => true
  | _, _ => false
  end.

(** [x <= y] *)
Definition le (x y : num) : bool := lt x y || eq x y.
(** [x > y] *)
Definition gt (x y : num) : bool := lt y x.
(** [x >= y] *)
Definition ge (x y : num) : bool := le y x.

(** [Math.min(x, y)] *)
Definition min (x y : num) : num :=
  match x, y with
  | NaN, _ | _, NaN => NaN
  | _, _ => if lt y x then y else x
  end.

(** [Math.max(x, y)] *)
Definition max (x y : num) : num :=
  match x, y with
  | NaN, _ | _, NaN => NaN
  | _, _ => if lt x y then y else x
  end.

(** [Math.abs(x)] *)
Definition abs (x : num) : num :=
  match x with
  | Fin q => Fin (Qabs q)
  | PInf | NInf => PInf
  | NaN => NaN
  end.

(** The sign of a rational as an integer: -1, 0 or 1. *)
Definition Qsgn (q : Q) : Z := Z.sgn (Qnum q).

(** [Math.sign(x)] *)
Definition sign (x : num) : num :=
  match x with
  | Fin q => Fin (inject_Z (Qsgn q))
  | PInf => Fin 1
  | NInf => Fin (-1)
  | NaN => NaN
  end.

(** [Math.sqrt(x)], over a square root [sqrtQ] of the non-negative
    rationals. *)
Definition sqrt (sqrtQ : Q -> Q) (x : num) : num :=
  match x with
  | Fin q => if Qltb q 0 then NaN else Fin (sqrtQ q)
  | PInf => PInf
  | NInf | NaN => NaN
  end.

(** [Math.max(...xs)] and [Math.min(...xs)] *)
Definition max_list (xs : list num) : num := fold_left max xs NInf.
Definition min_list (xs : list num) : num := fold_left min xs PInf.

(** [xs.slice(-n)]: the last [n] elements, all of them when there are fewer. *)
Definition slice_last {A} (n : nat) (xs : list A) : list A :=
  match n with
  | O => xs
  | S _ => skipn (length xs - n)%nat xs
  end.

(** [xs.slice(n - 1)] for a count [n]: from index [n - 1] on, and the last
    element alone when [n] is 0. *)
Definition slice_from_pred {A} (n : nat) (xs : list A) : list A :=
  match n with
  | O => slice_last 1 xs
  | S m => skipn m xs
  end.

(** [x ** 2] *)
Definition sq (x : num) : num := mul x x.

(** [xs[xs.length - 1]]; reading past the ends yields [undefined], which
    every arithmetic operation turns into [NaN]. *)
Definition last_num (xs : list num) : num := last xs NaN.
Definition at_index (xs : list num) (i : nat) : num := nth i xs NaN.

(** Two numbers denote the same value. *)
Definition same (x y : num) : Prop :=
  match x, y with
  | Fin a, Fin b => a == b
  | PInf, PInf | NInf, NInf | NaN, NaN => True
  | _, _ => False
  end.

End JS.

Abbreviation num := JS.num.
Abbreviation Fin := JS.Fin.
Abbreviation NaN := JS.NaN.
Infix "=~" := JS.same (at level 70, no associativity).

(** ** The indicator library *)

Section Indicators.

(** [Math.sqrt] on the finite non-negative values. *)
Variable sqrtQ : Q -> Q.

Definition ema_step (k prevEma current : num) : num :=
  JS.add (JS.mul current k) (JS.mul prevEma (JS.sub JS.one k)).

Fixpoint ema_loop (k prevEma : num) (rest : list num) : list num :=
  match rest with
  | [] => []
  | current :: rest' =>
      let e := ema_step k prevEma current in
      e :: ema_loop k e rest'
  end.

Definition ema (values : list num) (period : nat) : list num :=
  match values with
  | [] => []
  | v0 :: rest =>
      let k := JS.div (Fin 2) (JS.add (JS.of_nat period) JS.one) in
      v0 :: ema_loop k v0 rest
  end.

(** [values[i] - values[i - 1]] *)
Definition delta_at (values : list num) (i : nat) : num :=
  JS.sub (JS.at_index values i) (JS.at_index values (i - 1)).

(** The first loop of [rsi]: summed gains and losses of the first [period]
    deltas. *)
Definition rsi_sum (values : list num) (acc : num * num) (i : nat)
  : num * num :=
  let '(gains, losses) := acc in
  let delta := delta_at values i in
  if JS.ge delta JS.zero then (JS.add gains delta, losses)
  else (gains, JS.sub losses delta).

(** The second loop of [rsi]: Wilder's smoothing. *)
Definition rsi_smooth (values : list num) (period : nat) (acc : num * num)
  (i : nat) : num * num :=
  let '(avgGain, avgLoss) := acc in
  let delta := delta_at values i in
  let p := JS.of_nat period in
  let p1 := JS.sub p JS.one in
  if JS.ge delta JS.zero then
    (JS.div (JS.add (JS.mul avgGain p1) delta) p,
     JS.div (JS.mul avgLoss p1) p)
  else
    (JS.div (JS.mul avgGain p1) p,
     JS.div (JS.sub (JS.mul avgLoss p1) delta) p).

(** [avgGain] and [avgLoss] when the second loop of [rsi] ends. *)
Definition rsi_averages (values : list num) (period : nat) : num * num :=
  let '(gains, losses) :=
    fold_left (rsi_sum values) (seq 1 period) (JS.zero, JS.zero) in
  let p := JS.of_nat period in
  fold_left (rsi_smooth values period)
    (seq (period + 1) (length values - (period + 1)))
    (JS.div gains p, JS.div losses p).

Definition rsi (values : list num) (period : nat) : num :=
  if (length values <=? period)%nat then Fin 50
  else
    let '(avgGain, avgLoss) := rsi_averages values period in
    if JS.eq avgLoss JS.zero then Fin 80
    else
      let rs := JS.div avgGain avgLoss in
      JS.sub (Fin 100) (JS.div (Fin 100) (JS.add JS.one rs)).

Record Macd : Type := mkMacd {
  macd_macd : num;
  macd_signal : num;
  macd_histogram : num
}.

Definition macd (values : list num) (fastPeriod slowPeriod signalPeriod : nat)
  : Macd :=
  if (length values <? slowPeriod + signalPeriod)%nat
  then mkMacd JS.zero JS.zero JS.zero
  else
    let fastEma := ema values fastPeriod in
    let slowEma := ema values slowPeriod in
    let macdSeries :=
      map (fun idx => JS.sub (JS.at_index fastEma idx)
                             (JS.at_index slowEma idx))
          (seq 0 (length values)) in
    let signalSeries :=
      ema (JS.slice_from_pred slowPeriod macdSeries) signalPeriod in
    let macdValue := JS.last_num macdSeries in
    let signalValue := JS.last_num signalSeries in
    mkMacd macdValue signalValue (JS.sub macdValue signalValue).

(** [values.reduce((acc, val) => acc + val, 0)] *)
Definition sum (values : list num) : num := fold_left JS.add values JS.zero.

Definition standardDeviation (values : list num) : num :=
  let n := JS.of_nat (length values) in
  let mean := JS.div (sum values) n in
  let variance :=
    JS.div
      (fold_left (fun acc val => JS.add acc (JS.sq (JS.sub val mean)))
                 values JS.zero)
      n in
  JS.sqrt sqrtQ variance.

(** The loop of [volatilityPercent]: the simple returns
    [(closes[i] - closes[i-1]) / closes[i-1]] for [i = 1 .. length - 1]. *)
Fixpoint simple_returns (closes : list num) : list num :=
  match closes with
  | prev :: (cur :: _) as rest =>
      JS.div (JS.sub cur prev) prev :: simple_returns rest
  | _ => []
  end.

Definition volatilityPercent (closes : list num) : num :=
  if (length closes <? 2)%nat then JS.zero
  else
    let returns := simple_returns closes in
    JS.mul
      (JS.mul (standardDeviation returns)
              (JS.sqrt sqrtQ (JS.of_nat (length returns))))
      (Fin 100).

Definition volumeSpikeRatio (volumes : list num) (lookback : nat) : num :=
  if (length volumes =? 0)%nat then JS.one
  else
    let slice := JS.slice_last (lookback + 1) volumes in
    if (length slice <? 2)%nat then JS.one
    else
      let latest := JS.last_num slice in
      let rest := removelast slice in
      let avg :=
        JS.div (sum rest)
               (if (length rest =? 0)%nat then JS.one
                else JS.of_nat (length rest)) in
      if JS.eq avg JS.zero then JS.one else JS.div latest avg.

End Indicators.

(** ** Number formatting *)

(** [round(|q| * 10^digits)], ties away from zero, as [toFixed] picks its
    integer. *)
Definition scaled_round (q : Q) (digits : nat) : Z :=
  Qfloor (Qabs q * inject_Z (10 ^ Z.of_nat digits) + (1 # 2)).

Definition digits_of (n : Z) : string :=
  NilZero.string_of_uint (N.to_uint (Z.to_N n)).

Fixpoint zeros (n : nat) : string :=
  match n with
  | O => EmptyString
  | S n' => String "0" (zeros n')
  end.

(** [x.toFixed(digits)] (the exponent form of values from 1e21 on is not
    modelled). *)
Definition toFixed (x : num) (digits : nat) : string :=
  match x with
  | JS.NaN => "NaN"
  | JS.PInf => "Infinity"
  | JS.NInf => "-Infinity"
  | JS.Fin q =>
      let ds := digits_of (scaled_round q digits) in
      let padded :=
        (zeros (S digits - String.length ds) ++ ds)%string in
      let whole := (String.length padded - digits)%nat in
      let body :=
        match digits with
        | O => padded
        | S _ =>
            (substring 0 whole padded ++ "." ++
             substring whole digits padded)%string
        end in
      if JS.Qltb q 0 then ("-" ++ body)%string else body
  end.

(** [Number(x.toFixed(digits))] *)
Definition roundFixed (x : num) (digits : nat) : num :=
  match x with
  | JS.Fin q =>
      let r := inject_Z (scaled_round q digits)
               / inject_Z (10 ^ Z.of_nat digits) in
      Fin (if JS.Qltb q 0 then - r else r)
  | _ => x
  end.

(** ** Market data, as the evaluator consumes it *)

(** One candle; the fields [parseKlines] reads, each already decoded by
    [Number] ([NaN] when the provider's string is not a number). *)
Record Kline : Type := mkKline {
  k_high : num;    (* k[2] *)
  k_low : num;     (* k[3] *)
  k_close : num;   (* k[4] *)
  k_volume : num   (* k[5] *)
}.

Record Candles : Type := mkCandles {
  closes : list num;
  highs : list num;
  lows : list num;
  volumes : list num
}.

Definition parseKlines (klines : list Kline) : Candles :=
  mkCandles (map k_close klines) (map k_high klines)
            (map k_low klines) (map k_volume klines).

Record PremiumIndex : Type := mkPremiumIndex {
  lastFundingRate : num
}.

Record OpenInterestPoint : Type := mkOpenInterestPoint {
  sumOpenInterest : num;
  timestamp : num
}.

Record Ticker24h : Type := mkTicker24h {
  t_symbol : string;
  t_lastPrice : num;
  t_priceChangePercent : num;
  t_volume : num;
  t_quoteVolume : num;
  t_count : option num;
  t_highPrice : num;
  t_lowPrice : num;
  t_weightedAvgPrice : num
}.

Record BaseTickerSnapshot : Type := mkBaseTickerSnapshot {
  symbol : string;
  lastPrice : num;
  priceChangePercent : num;
  quoteVolume : num;
  volume : num;
  tradeCount : num;
  highPrice : num;
  lowPrice : num;
  weightedAvgPrice : num
}.

(** A promise that has settled. *)
Inductive promise (A : Type) : Type :=
| Resolved (a : A)
| Rejected.
Arguments Resolved {A} a.
Arguments Rejected {A}.

Definition bind {A B} (p : promise A) (k : A -> promise B) : promise B :=
  match p with
  | Resolved a => k a
  | Rejected => Rejected
  end.

Notation "x <- p ;; k" := (bind p (fun x => k))
  (at level 61, p at next level, right associativity).

(** [p.catch(() => null)] *)
Definition catch_null {A} (p : promise (option A)) : option A :=
  match p with
  | Resolved r => r
  | Rejected => None
  end.

(** The market-data collaborator at the moment of one scan pass: what each
    request settles to. *)
Record Market : Type := mkMarket {
  fetchPerpetualSymbols : promise (list string);
  fetchTickers : promise (list Ticker24h);
  fetchKlines : string -> string -> nat -> promise (list Kline);
  fetchPremiumIndex : string -> promise PremiumIndex;
  fetchOpenInterestHist : string -> string -> nat
                          -> promise (list OpenInterestPoint)
}.

(** ** The scan route: evaluator, classifier, scorer and funnel *)

Inductive MovementStatus : Type :=
| MovingNow       (* "Moving Now" *)
| AboutToMove     (* "About To Move" *)
| LikelyIn24H.    (* "Likely in 24H" *)

Inductive Direction : Type := Long | Short.

Inductive Confidence : Type := Low | Medium | High.

Record Metadata : Type := mkMetadata {
  md_rsi1h : num;
  md_rsi4h : num;
  md_macd1h : num;
  md_macdHistogram1h : num;
  md_macd4h : num;
  md_macdHistogram4h : num;
  md_emaTrend1h : num;
  md_emaTrend4h : num;
  md_volumeSpikeRatio : num;
  md_openInterestDeltaPct : num;
  md_fundingRatePct : num;
  md_volatilityPct : num;
  md_priceChange24h : num
}.

Record EvaluatedSymbol : Type := mkEvaluatedSymbol {
  es_symbol : string;
  movementStatus : MovementStatus;
  reason : string;
  trendStrength : string;
  volumeSpike : string;
  fundingRate : string;
  openInterestChange : string;
  volatility : string;
  breakoutSignal : string;
  whaleActivity : string;
  riskScore : num;
  confidence : Confidence;
  es_direction : Direction;
  entry : num;
  takeProfits : list num;
  stopLoss : num;
  safeLeverage : string;
  compositeScore : num;
  metadata : Metadata
}.

Definition MAX_DEEP_SYMBOLS : nat := 25.

Definition normalizeTicker (ticker : Ticker24h) : BaseTickerSnapshot :=
  mkBaseTickerSnapshot
    (t_symbol ticker)
    (t_lastPrice ticker)
    (t_priceChangePercent ticker)
    (t_quoteVolume ticker)
    (t_volume ticker)
    (match t_count ticker with Some c => c | None => JS.zero end)
    (t_highPrice ticker)
    (t_lowPrice ticker)
    (t_weightedAvgPrice ticker).

(** [xs.sort(cmp)]: the stable sort; [a] stays before [b] unless
    [cmp(a, b) > 0]. *)
Section Sort.
Context {A : Type} (cmp : A -> A -> num).

Fixpoint sort_insert (x : A) (sorted : list A) : list A :=
  match sorted with
  | [] => [x]
  | y :: rest =>
      if JS.gt (cmp x y) JS.zero then y :: sort_insert x rest
      else x :: sorted
  end.

Definition sort (xs : list A) : list A := fold_right sort_insert [] xs.
End Sort.

Definition calculateOpenInterestDelta (points : list OpenInterestPoint)
  : num :=
  if (length points <? 2)%nat then JS.zero
  else
    let sorted :=
      sort (fun a b => JS.sub (timestamp a) (timestamp b)) points in
    let n := length sorted in
    let latest := JS.at_index (map sumOpenInterest sorted) (n - 1) in
    let prev := JS.at_index (map sumOpenInterest sorted) (n - 2) in
    if JS.eq prev JS.zero then JS.zero
    else JS.mul (JS.div (JS.sub latest prev) prev) (Fin 100).

Record Breakout : Type := mkBreakout {
  nearHigh : num;
  nearLow : num;
  isBreakout : bool;
  isBreakdown : bool
}.

Definition detectBreakout (highs lows : list num) (price : num) : Breakout :=
  let recentHighs := JS.slice_last 20 highs in
  let recentLows := JS.slice_last 20 lows in
  let referenceHighs :=
    if (length recentHighs =? 0)%nat then highs else recentHighs in
  let referenceLows :=
    if (length recentLows =? 0)%nat then lows else recentLows in
  let recentHigh := JS.max_list referenceHighs in
  let recentLow := JS.min_list referenceLows in
  let nearHigh := JS.div (JS.sub price recentHigh) recentHigh in
  let nearLow := JS.div (JS.sub price recentLow) recentLow in
  mkBreakout nearHigh nearLow
    (JS.gt nearHigh (Fin (-0.002)))
    (JS.lt nearLow (Fin 0.002)).

Record StatusParams : Type := mkStatusParams {
  sp_priceChange : num;
  sp_volSpike1h : num;
  sp_volSpike15m : num;
  sp_emaTrend1h : num;
  sp_emaTrend4h : num;
  sp_rsi1h : num;
  sp_rsi4h : num;
  sp_macdHist1h : num;
  sp_macdHist4h : num;
  sp_breakout : Breakout;
  sp_longerBreakout : Breakout;
  sp_oiChangePct : num;
  sp_volatility : num
}.

Definition strongMomentum (params : StatusParams) : bool :=
  JS.gt (sp_volSpike1h params) (Fin 1.6) &&
  JS.gt (sp_volSpike15m params) (Fin 1.4) &&
  JS.gt (JS.abs (sp_priceChange params)) (Fin 1) &&
  JS.eq (JS.sign (sp_macdHist1h params)) (JS.sign (sp_macdHist4h params)) &&
  JS.gt (JS.abs (sp_emaTrend1h params)) (Fin 0.01) &&
  JS.gt (JS.abs (sp_emaTrend4h params)) (Fin 0.01) &&
  JS.gt (JS.abs (sp_oiChangePct params)) (Fin 0.5).

Definition alignedMomentum (params : StatusParams) : bool :=
  (JS.gt (sp_volSpike1h params) (Fin 1.3) &&
   JS.gt (JS.abs (sp_emaTrend1h params)) (Fin 0.006) &&
   JS.gt (JS.abs (sp_macdHist1h params)) (Fin 0.0005))
  || (JS.gt (sp_volSpike15m params) (Fin 1.2) &&
      JS.gt (JS.abs (sp_oiChangePct params)) (Fin 0.3)).

Definition determineMovementStatus (params : StatusParams) : MovementStatus :=
  if strongMomentum params
     || (isBreakout (sp_breakout params) &&
         isBreakout (sp_longerBreakout params) &&
         JS.gt (sp_volatility params) (Fin 2.5))
  then MovingNow
  else if alignedMomentum params &&
          JS.eq (JS.sign (sp_emaTrend1h params))
                (JS.sign (sp_emaTrend4h params)) &&
          JS.eq (JS.sign (sp_macdHist1h params))
                (JS.sign (sp_macdHist4h params)) &&
          ((JS.gt (sp_rsi1h params) (Fin 52) &&
            JS.gt (sp_rsi4h params) (Fin 50))
           || (JS.lt (sp_rsi1h params) (Fin 48) &&
               JS.lt (sp_rsi4h params) (Fin 50)))
  then AboutToMove
  else LikelyIn24H.

Record ScoreParams : Type := mkScoreParams {
  cp_priceChange : num;
  cp_volSpike1h : num;
  cp_volSpike15m : num;
  cp_emaTrend1h : num;
  cp_emaTrend4h : num;
  cp_macdHist1h : num;
  cp_macdHist4h : num;
  cp_rsi1h : num;
  cp_rsi4h : num;
  cp_breakout : Breakout;
  cp_longerBreakout : Breakout;
  cp_fundingRatePct : num;
  cp_oiChangePct : num;
  cp_volatility : num
}.

(** The value of [composite] in [buildCompositeScore], before the
    finiteness check. *)
Definition compositeSum (params : ScoreParams) : num :=
  let trendAlignment :=
    if JS.eq (JS.sign (cp_emaTrend1h params)) (JS.sign (cp_emaTrend4h params))
    then 1 else 0 in
  let macdAlignment :=
    if JS.eq (JS.sign (cp_macdHist1h params)) (JS.sign (cp_macdHist4h params))
    then 1 else 0 in
  let rsiAlignment :=
    if (JS.gt (cp_rsi1h params) (Fin 55) && JS.gt (cp_rsi4h params) (Fin 52))
       || (JS.lt (cp_rsi1h params) (Fin 45) &&
           JS.lt (cp_rsi4h params) (Fin 48))
    then 1 else 0 in
  let breakFactor :=
    JS.add (if isBreakout (cp_breakout params) then Fin 1 else Fin 0)
           (if isBreakout (cp_longerBreakout params) then Fin 0.8
            else Fin 0) in
  let volScore :=
    JS.add (JS.min (JS.mul (cp_volSpike1h params) (Fin 15)) (Fin 18))
           (JS.min (JS.mul (cp_volSpike15m params) (Fin 12)) (Fin 15)) in
  let trendScore :=
    JS.add
      (JS.min (JS.mul (JS.abs (cp_emaTrend1h params)) (Fin 110)) (Fin 18))
      (JS.min (JS.mul (JS.abs (cp_emaTrend4h params)) (Fin 90)) (Fin 16)) in
  let macdScore :=
    JS.add
      (JS.min (JS.mul (JS.abs (cp_macdHist1h params)) (Fin 70000)) (Fin 12))
      (JS.min (JS.mul (JS.abs (cp_macdHist4h params)) (Fin 40000)) (Fin 10))
  in
  let rsiScore := if Qeq_bool rsiAlignment 0 then Fin 4 else Fin 10 in
  let oiScore :=
    JS.min (JS.mul (JS.abs (cp_oiChangePct params)) (Fin 4)) (Fin 12) in
  let fundingPenalty :=
    JS.mul
      (JS.max (JS.sub (JS.abs (cp_fundingRatePct params)) (Fin 0.03))
              (Fin 0))
      (Fin 120) in
  let volatilityScore :=
    JS.min (JS.mul (cp_volatility params) (Fin 4)) (Fin 15) in
  let base :=
    JS.add (JS.add (JS.add (JS.add (JS.add volScore trendScore) macdScore)
                           rsiScore) oiScore) volatilityScore in
  let alignmentBonus :=
    JS.mul (Fin (trendAlignment + macdAlignment + rsiAlignment)) (Fin 6) in
  let breakoutBonus := JS.mul breakFactor (Fin 8) in
  JS.sub (JS.add (JS.add base alignmentBonus) breakoutBonus) fundingPenalty.

Definition buildCompositeScore (params : ScoreParams) : num :=
  let composite := compositeSum params in
  if JS.isFinite composite then composite else JS.zero.

Definition deriveRiskScore
  (volatility fundingRatePct oiChangePct volSpike1h volSpike15m : num) : num :=
  let volRisk := JS.min (JS.div volatility (Fin 1.5)) (Fin 6) in
  let fundingRisk :=
    JS.min (JS.mul (JS.abs fundingRatePct) (Fin 120)) (Fin 4) in
  let oiRisk :=
    JS.max (Fin 0)
           (JS.sub (Fin 3) (JS.min (JS.abs oiChangePct) (Fin 3))) in
  let volumeRisk :=
    if JS.gt volSpike1h (Fin 2.2) || JS.gt volSpike15m (Fin 2.2) then Fin 1.5
    else if JS.lt volSpike1h (Fin 1) then Fin 4
    else Fin 1 in
  let raw := JS.add (JS.add (JS.add volRisk fundingRisk) oiRisk) volumeRisk in
  JS.max (Fin 1) (JS.min (Fin 10) (roundFixed raw 1)).

Definition deriveConfidence (composite riskScore : num) : Confidence :=
  if JS.gt composite (Fin 90) && JS.le riskScore (Fin 4) then High
  else if JS.gt composite (Fin 70) && JS.le riskScore (Fin 6) then Medium
  else Low.

Local Open Scope string_scope.

(** [pieces.join(sep)] *)
Fixpoint join (sep : string) (pieces : list string) : string :=
  match pieces with
  | [] => EmptyString
  | [p] => p
  | p :: rest => p ++ sep ++ join sep rest
  end.

Definition buildReason (direction : Direction)
  (volSpike1h volSpike15m macdHist1h macdHist4h : num)
  (rsi1h rsi4h : num) (breakout longerBreakout : Breakout)
  (oiChangePct : num) : string :=
  let pieces :=
    ([match direction with
     | Long => "Bullish alignment across 1H/4H EMAs"
     | Short => "Bearish alignment across 1H/4H EMAs"
     end]
    ++ (if JS.gt volSpike1h (Fin 1.5) || JS.gt volSpike15m (Fin 1.3)
        then ["Live volume expansion confirmed"] else [])
    ++ (if JS.eq (JS.sign macdHist1h) (JS.sign macdHist4h)
        then [("MACD momentum "
               ++ (if JS.gt macdHist1h (Fin 0) then "positive"
                   else "negative")
               ++ " on 1H & 4H")%string]
        else [])
    ++ (if isBreakout breakout || isBreakout longerBreakout
        then ["Price pressing breakout liquidity"] else [])
    ++ (if JS.gt (JS.abs oiChangePct) (Fin 0.5)
        then ["Open interest rising with price action"] else [])
    ++ (if JS.gt rsi1h (Fin 65) || JS.gt rsi4h (Fin 60)
           || JS.lt rsi1h (Fin 35) || JS.lt rsi4h (Fin 40)
        then [("RSI extremes reinforcing "
               ++ match direction with
                  | Long => "bullish"
                  | Short => "bearish"
                  end
               ++ " drive")%string]
        else []))%list
  in
  join " · " pieces.

Definition describeWhaleActivity (volSpike1h volSpike15m oiChangePct : num)
  : string :=
  if JS.gt volSpike15m (Fin 1.8) && JS.gt (JS.abs oiChangePct) (Fin 1.2)
  then "Aggressive block flow detected (OI + volume spike)"
  else if JS.gt volSpike1h (Fin 1.6) && JS.gt (JS.abs oiChangePct) (Fin 0.6)
  then "Institutional flow building steadily"
  else if JS.lt volSpike1h (Fin 1.1) && JS.lt (JS.abs oiChangePct) (Fin 0.2)
  then "No notable whale footprints right now"
  else "Moderate leveraged participation active".

Definition describeVolatility (volatility : num) : string :=
  if JS.lt volatility (Fin 1.5) then "Calm " ++ toFixed volatility 2 ++ "%"
  else if JS.lt volatility (Fin 3)
  then "Controlled " ++ toFixed volatility 2 ++ "%"
  else if JS.lt volatility (Fin 5)
  then "Elevated " ++ toFixed volatility 2 ++ "%"
  else "High " ++ toFixed volatility 2 ++ "%".

Definition describeBreakoutSignal (breakout longerBreakout : Breakout)
  (direction : Direction) : string :=
  match direction with
  | Long =>
      if isBreakout breakout
      then "Testing intraday highs; watch for breakout follow-through"
      else if isBreakout longerBreakout
      then "Pressing 4H supply; breakout likely with sustained bids"
      else if JS.lt (nearLow breakout) (Fin (-0.001))
      then "Liquidity sweep completed; bounce expected"
      else "Range-bound but building pressure"
  | Short =>
      if isBreakdown breakout
      then "Slipping beneath intraday support; breakdown watch"
      else if isBreakdown longerBreakout
      then "4H support vulnerable; short continuation favoured"
      else if JS.gt (nearHigh breakout) (Fin (-0.001))
      then "Liquidity grab above highs; reversal setup"
      else "Compression; fade rallies until momentum shifts"
  end.

Definition describeTrendStrength (direction : Direction)
  (emaTrend1h emaTrend4h rsi1h rsi4h macd1h macdSignal1h : num) : string :=
  let slope1h := JS.mul emaTrend1h (Fin 100) in
  let slope4h := JS.mul emaTrend4h (Fin 100) in
  let macdDiff := JS.sub macd1h macdSignal1h in
  let slopeDescriptor :=
    if JS.gt (JS.abs slope1h) (Fin 1.2) && JS.gt (JS.abs slope4h) (Fin 0.8)
    then "Strong"
    else if JS.gt (JS.abs slope1h) (Fin 0.6) then "Firm"
    else "Moderate" in
  let rsiDescriptor := "RSI " ++ toFixed rsi1h 1 ++ "/" ++ toFixed rsi4h 1 in
  let macdDescriptor :=
    if JS.gt macdDiff (Fin 0) then "MACD accelerating"
    else "MACD flattening" in
  slopeDescriptor ++ " "
  ++ match direction with Long => "long" | Short => "short" end
  ++ " bias · " ++ rsiDescriptor ++ " · " ++ macdDescriptor.

Definition roundToTickSize (price : num) : num :=
  if JS.ge price (Fin 1000) then roundFixed price 1
  else if JS.ge price (Fin 100) then roundFixed price 2
  else if JS.ge price (Fin 10) then roundFixed price 3
  else if JS.ge price (Fin 1) then roundFixed price 4
  else roundFixed price 5.

(** The [direction] of [evaluateSymbol]. *)
Definition direction (emaTrend1h emaTrend4h rsi1h : num) : Direction :=
  if JS.ge emaTrend1h (Fin 0) && JS.ge emaTrend4h (Fin 0)
     && JS.ge rsi1h (Fin 48)
  then Long
  else if JS.le emaTrend1h (Fin 0) && JS.le emaTrend4h (Fin 0)
          && JS.le rsi1h (Fin 52)
  then Short
  else if JS.ge emaTrend1h emaTrend4h then Long
  else Short.

(** The [tpMultipliers] of [evaluateSymbol]. *)
Definition tpMultipliers (d : Direction) : list num :=
  match d with
  | Long => [Fin 1.006; Fin 1.012; Fin 1.02]
  | Short => [Fin 0.994; Fin 0.988; Fin 0.978]
  end.

(** The [stopMultiplier] of [evaluateSymbol]. *)
Definition stopMultiplier (d : Direction) (volatility : num) : num :=
  match d with
  | Long =>
      JS.max (Fin 0.986)
             (JS.sub (Fin 1) (JS.max (JS.div volatility (Fin 150))
                                     (Fin 0.012)))
  | Short =>
      JS.min (Fin 1.014)
             (JS.add (Fin 1) (JS.max (JS.div volatility (Fin 150))
                                     (Fin 0.012)))
  end.

(** The [leverage] of [evaluateSymbol]. *)
Definition leverage (volatility : num) : string :=
  if JS.lt volatility (Fin 2) then "15-20x"
  else if JS.lt volatility (Fin 3.5) then "10-15x"
  else if JS.lt volatility (Fin 5) then "6-10x"
  else if JS.lt volatility (Fin 7) then "4-6x"
  else "3-4x".

Section Scan.

(** [Math.sqrt] on the finite non-negative values and [Math.log10]. *)
Variable sqrtQ : Q -> Q.
Variable log10 : num -> num.

Definition preScoreTicker (ticker : BaseTickerSnapshot) : num :=
  let priceMoveScore :=
    JS.min (JS.mul (JS.abs (priceChangePercent ticker)) (Fin 1.2)) (Fin 25) in
  let volumeScore :=
    JS.min (JS.mul (log10 (JS.add (quoteVolume ticker) (Fin 1))) (Fin 12))
           (Fin 25) in
  let range :=
    if JS.gt (lowPrice ticker) (Fin 0)
    then JS.mul (JS.div (JS.sub (highPrice ticker) (lowPrice ticker))
                        (lowPrice ticker))
                (Fin 100)
    else Fin 0 in
  let rangeScore := JS.min range (Fin 20) in
  let velocity :=
    JS.div (JS.abs (priceChangePercent ticker)) (JS.max range (Fin 1)) in
  let velocityScore := JS.min (JS.mul velocity (Fin 10)) (Fin 15) in
  let baseline :=
    JS.add (JS.add (JS.add priceMoveScore volumeScore) rangeScore)
           velocityScore in
  baseline.

Definition evaluateSymbol (market : Market) (ticker : BaseTickerSnapshot)
  : promise (option EvaluatedSymbol) :=
  klines1h <- fetchKlines market (symbol ticker) "1h" 180 ;;
  klines4h <- fetchKlines market (symbol ticker) "4h" 180 ;;
  klines15m <- fetchKlines market (symbol ticker) "15m" 180 ;;
  premium <- fetchPremiumIndex market (symbol ticker) ;;
  oiHist <- fetchOpenInterestHist market (symbol ticker) "5m" 12 ;;
  if ((length klines1h <? 30) || (length klines4h <? 30))%nat
  then Resolved None
  else
    let oneHour := parseKlines klines1h in
    let fourHour := parseKlines klines4h in
    let fifteenMin := parseKlines klines15m in
    let lastPrice := JS.last_num (closes oneHour) in
    let rsi1h := rsi (JS.slice_last 120 (closes oneHour)) 14 in
    let rsi4h := rsi (JS.slice_last 120 (closes fourHour)) 14 in
    let macd1h := macd (JS.slice_last 160 (closes oneHour)) 12 26 9 in
    let macd4h := macd (JS.slice_last 160 (closes fourHour)) 12 26 9 in
    let ema21_1h := last (ema (closes oneHour) 21) lastPrice in
    let ema50_1h := last (ema (closes oneHour) 50) lastPrice in
    let ema21_4h := last (ema (closes fourHour) 21) lastPrice in
    let ema50_4h := last (ema (closes fourHour) 50) lastPrice in
    let emaTrend1h :=
      JS.sub (JS.div (JS.sub lastPrice ema21_1h) ema21_1h)
             (JS.div (JS.sub ema21_1h ema50_1h) ema50_1h) in
    let emaTrend4h :=
      JS.sub (JS.div (JS.sub lastPrice ema21_4h) ema21_4h)
             (JS.div (JS.sub ema21_4h ema50_4h) ema50_4h) in
    let volSpike1h := volumeSpikeRatio (volumes oneHour) 20 in
    let volSpike15m := volumeSpikeRatio (volumes fifteenMin) 20 in
    let volatility :=
      volatilityPercent sqrtQ (JS.slice_last 48 (closes oneHour)) in
    let fundingRatePct := JS.mul (lastFundingRate premium) (Fin 100) in
    let oiChangePct := calculateOpenInterestDelta oiHist in
    let breakout :=
      detectBreakout (highs oneHour) (lows oneHour) lastPrice in
    let longerBreakout :=
      detectBreakout (highs fourHour) (lows fourHour) lastPrice in
    let movementStatus :=
      determineMovementStatus
        (mkStatusParams (priceChangePercent ticker) volSpike1h volSpike15m
           emaTrend1h emaTrend4h rsi1h rsi4h
           (macd_histogram macd1h) (macd_histogram macd4h)
           breakout longerBreakout oiChangePct volatility) in
    let direction := direction emaTrend1h emaTrend4h rsi1h in
    let compositeScore :=
      buildCompositeScore
        (mkScoreParams (priceChangePercent ticker) volSpike1h volSpike15m
           emaTrend1h emaTrend4h
           (macd_histogram macd1h) (macd_histogram macd4h)
           rsi1h rsi4h breakout longerBreakout
           fundingRatePct oiChangePct volatility) in
    let riskScore :=
      deriveRiskScore volatility fundingRatePct oiChangePct
                      volSpike1h volSpike15m in
    let confidence := deriveConfidence compositeScore riskScore in
    let tpMultipliers := tpMultipliers direction in
    let stopMultiplier := stopMultiplier direction volatility in
    let leverage := leverage volatility in
    let reason :=
      buildReason direction volSpike1h volSpike15m
        (macd_histogram macd1h) (macd_histogram macd4h)
        rsi1h rsi4h breakout longerBreakout oiChangePct in
    let whaleActivity :=
      describeWhaleActivity volSpike1h volSpike15m oiChangePct in
    let volatilityDescriptor := describeVolatility volatility in
    let breakoutSignal :=
      describeBreakoutSignal breakout longerBreakout direction in
    let trendStrength :=
      describeTrendStrength direction emaTrend1h emaTrend4h rsi1h rsi4h
        (macd_macd macd1h) (macd_signal macd1h) in
    Resolved (Some
      (mkEvaluatedSymbol
         (symbol ticker)
         movementStatus
         reason
         trendStrength
         (toFixed volSpike1h 2 ++ "x (1H) / "
          ++ toFixed volSpike15m 2 ++ "x (15M)")
         (toFixed fundingRatePct 3 ++ "%")
         ((if JS.ge oiChangePct (Fin 0) then "+" else "")
          ++ toFixed oiChangePct 2 ++ "% (5m)")
         volatilityDescriptor
         breakoutSignal
         whaleActivity
         riskScore
         confidence
         direction
         (roundToTickSize lastPrice)
         (map (fun m => roundToTickSize (JS.mul lastPrice m)) tpMultipliers)
         (roundToTickSize (JS.mul lastPrice stopMultiplier))
         leverage
         compositeScore
         (mkMetadata rsi1h rsi4h
            (macd_macd macd1h) (macd_histogram macd1h)
            (macd_macd macd4h) (macd_histogram macd4h)
            emaTrend1h emaTrend4h volSpike1h oiChangePct
            fundingRatePct volatility (priceChangePercent ticker)))).

(** What the route answers; the wall-clock [timestamp] is left out. *)
Inductive Response : Type :=
| Json (movers strongest : list EvaluatedSymbol)
       (all : option (list EvaluatedSymbol)) (message : option string)
| ErrorJson (error : string) (status : nat).

Definition NO_TRADE : Response :=
  Json [] [] None (Some "NO SAFE FUTURES TRADE RIGHT NOW.").

(** [items.filter(Boolean)] on the settled evaluations. *)
Fixpoint non_null {A} (items : list (option A)) : list A :=
  match items with
  | [] => []
  | Some a :: rest => a :: non_null rest
  | None :: rest => non_null rest
  end.

(** The settled evaluations of the shortlist, in shortlist order (the
    limiter bounds how many run at once, not what each settles to). *)
Definition settle (market : Market) (shortlist : list BaseTickerSnapshot)
  : list (option EvaluatedSymbol) :=
  map (fun ticker => catch_null (evaluateSymbol market ticker)) shortlist.

(** The [evaluated] of [GET]. *)
Definition evaluated (market : Market) (shortlist : list BaseTickerSnapshot)
  : list EvaluatedSymbol :=
  sort (fun a b => JS.sub (compositeScore b) (compositeScore a))
    (filter (fun item => JS.ge (compositeScore item) (Fin 55))
       (non_null (settle market shortlist))).

(** The answer of [GET] once [evaluated] is known. *)
Definition respond (evaluated : list EvaluatedSymbol) : Response :=
  if (length evaluated =? 0)%nat then NO_TRADE
  else Json (firstn 5 evaluated) (firstn 3 evaluated) (Some evaluated) None.

(** The [preScored] of [GET], without the scores it was ordered by. *)
Definition shortlist (filteredTickers : list BaseTickerSnapshot)
  : list BaseTickerSnapshot :=
  map fst
    (firstn MAX_DEEP_SYMBOLS
       (sort (fun a b => JS.sub (snd b) (snd a))
          (map (fun ticker => (ticker, preScoreTicker ticker))
               filteredTickers))).

Definition GET (market : Market) : Response :=
  match fetchPerpetualSymbols market, fetchTickers market with
  | Resolved symbols, Resolved tickers =>
      let tradable := fun s => existsb (String.eqb s) symbols in
      let filteredTickers :=
        filter (fun t => JS.gt (quoteVolume t) (Fin 2000000))
          (map normalizeTicker
             (filter (fun t => tradable (t_symbol t)) tickers)) in
      if (length filteredTickers =? 0)%nat then NO_TRADE
      else respond (evaluated market (shortlist filteredTickers))
  | _, _ => ErrorJson "Failed to run live Binance Futures scan." 500
  end.

End Scan.
(** ** The specification's wording of the classifier, on finite values *)

Local Close Scope string_scope.

(** Two values have the same sign: both positive, both zero or both
    negative. *)
Definition same_sign (a b : Q) : Prop :=
  (0 < a /\ 0 < b) \/ (a == 0 /\ b == 0) \/ (a < 0 /\ b < 0).

(** The finite readings a movement state is decided from. *)
Record Readings : Type := mkReadings {
  r_priceChange : Q;
  r_volSpike1h : Q;
  r_volSpike15m : Q;
  r_emaTrend1h : Q;
  r_emaTrend4h : Q;
  r_rsi1h : Q;
  r_rsi4h : Q;
  r_macdHist1h : Q;
  r_macdHist4h : Q;
  r_breakout : bool;
  r_longerBreakout : bool;
  r_oiChangePct : Q;
  r_volatility : Q
}.

(** The parameters [determineMovementStatus] receives for these readings;
    the near-high and near-low ratios of the two breakout records are not
    read by it. *)
Definition status_params (r : Readings) (b1 b4 : Breakout) : StatusParams :=
  mkStatusParams (Fin (r_priceChange r)) (Fin (r_volSpike1h r))
    (Fin (r_volSpike15m r)) (Fin (r_emaTrend1h r)) (Fin (r_emaTrend4h r))
    (Fin (r_rsi1h r)) (Fin (r_rsi4h r))
    (Fin (r_macdHist1h r)) (Fin (r_macdHist4h r))
    (mkBreakout (nearHigh b1) (nearLow b1) (r_breakout r) (isBreakdown b1))
    (mkBreakout (nearHigh b4) (nearLow b4) (r_longerBreakout r)
                (isBreakdown b4))
    (Fin (r_oiChangePct r)) (Fin (r_volatility r)).

(** "Strong momentum". *)
Definition strong_momentum (r : Readings) : Prop :=
  1.6 < r_volSpike1h r /\ 1.4 < r_volSpike15m r
  /\ 1 < Qabs (r_priceChange r)
  /\ same_sign (r_macdHist1h r) (r_macdHist4h r)
  /\ 0.01 < Qabs (r_emaTrend1h r) /\ 0.01 < Qabs (r_emaTrend4h r)
  /\ 0.5 < Qabs (r_oiChangePct r).

(** The tier "Moving Now". *)
Definition moving_now (r : Readings) : Prop :=
  strong_momentum r
  \/ (r_breakout r = true /\ r_longerBreakout r = true
      /\ 2.5 < r_volatility r).

(** "Aligned momentum". *)
Definition aligned_momentum (r : Readings) : Prop :=
  (1.3 < r_volSpike1h r /\ 0.006 < Qabs (r_emaTrend1h r)
   /\ 0.0005 < Qabs (r_macdHist1h r))
  \/ (1.2 < r_volSpike15m r /\ 0.3 < Qabs (r_oiChangePct r)).

(** "RSI bias agreement". *)
Definition rsi_bias (r : Readings) : Prop :=
  (52 < r_rsi1h r /\ 50 < r_rsi4h r) \/ (r_rsi1h r < 48 /\ r_rsi4h r < 50).

(** The conditions of the tier "About To Move". *)
Definition about_to_move (r : Readings) : Prop :=
  aligned_momentum r
  /\ same_sign (r_emaTrend1h r) (r_emaTrend4h r)
  /\ same_sign (r_macdHist1h r) (r_macdHist4h r)
  /\ rsi_bias r.

(** The Long and the Short rule of the direction. *)
Definition long_rule (emaTrend1h emaTrend4h rsi1h : Q) : Prop :=
  0 <= emaTrend1h /\ 0 <= emaTrend4h /\ 48 <= rsi1h.

Definition short_rule (emaTrend1h emaTrend4h rsi1h : Q) : Prop :=
  emaTrend1h <= 0 /\ emaTrend4h <= 0 /\ rsi1h <= 52.

(** ** The specification's wording of the composite score *)

(** The parameters [buildCompositeScore] receives for finite readings and a
    finite funding rate. *)
Definition score_params (r : Readings) (fundingRatePct : Q)
  (b1 b4 : Breakout) : ScoreParams :=
  mkScoreParams (Fin (r_priceChange r)) (Fin (r_volSpike1h r))
    (Fin (r_volSpike15m r)) (Fin (r_emaTrend1h r)) (Fin (r_emaTrend4h r))
    (Fin (r_macdHist1h r)) (Fin (r_macdHist4h r))
    (Fin (r_rsi1h r)) (Fin (r_rsi4h r))
    (mkBreakout (nearHigh b1) (nearLow b1) (r_breakout r) (isBreakdown b1))
    (mkBreakout (nearHigh b4) (nearLow b4) (r_longerBreakout r)
                (isBreakdown b4))
    (Fin fundingRatePct) (Fin (r_oiChangePct r)) (Fin (r_volatility r)).

(** Sign agreement, decided. *)
Definition agree (a b : Q) : bool := (JS.Qsgn a =? JS.Qsgn b)%Z.

(** RSI alignment of the score: both above 55/52 or both below 45/48. *)
Definition rsi_aligned (r : Readings) : bool :=
  (JS.Qltb 55 (r_rsi1h r) && JS.Qltb 52 (r_rsi4h r))
  || (JS.Qltb (r_rsi1h r) 45 && JS.Qltb (r_rsi4h r) 48).

(** The capped contributions. *)
Definition capped_terms (r : Readings) : Q :=
  Qmin (r_volSpike1h r * 15) 18 + Qmin (r_volSpike15m r * 12) 15
  + Qmin (Qabs (r_emaTrend1h r) * 110) 18
  + Qmin (Qabs (r_emaTrend4h r) * 90) 16
  + Qmin (Qabs (r_macdHist1h r) * 70000) 12
  + Qmin (Qabs (r_macdHist4h r) * 40000) 10
  + (if rsi_aligned r then 10 else 4)
  + Qmin (Qabs (r_oiChangePct r) * 4) 12
  + Qmin (r_volatility r * 4) 15.

(** +6 for each agreeing signal among trend, MACD and RSI alignment. *)
Definition alignment_bonus (r : Readings) : Q :=
  (if agree (r_emaTrend1h r) (r_emaTrend4h r) then 6 else 0)
  + (if agree (r_macdHist1h r) (r_macdHist4h r) then 6 else 0)
  + (if rsi_aligned r then 6 else 0).

(** +8 for the short-timeframe breakout, +6.4 for the long-timeframe one. *)
Definition breakout_bonus (r : Readings) : Q :=
  (if r_breakout r then 8 else 0) + (if r_longerBreakout r then 6.4 else 0).

(** The portion of the funding rate's magnitude above 0.03, times 120. *)
Definition funding_penalty (fundingRatePct : Q) : Q :=
  Qmax (Qabs fundingRatePct - 0.03) 0 * 120.

Definition composite_spec (r : Readings) (fundingRatePct : Q) : Q :=
  capped_terms r + alignment_bonus r + breakout_bonus r
  - funding_penalty fundingRatePct.

(** Readings of a quiet market: flat price and trend, volumes at their
    average, neutral RSI, no breakout, 1 % volatility. *)
Definition quiet_readings : Readings :=
  mkReadings 0 1 1 0 0 50 50 0 0 false false 0 1.

(** A price 5 % below the recent high and 5 % above the recent low. *)
Definition no_breakout : Breakout :=
  mkBreakout (Fin (-0.05)) (Fin 0.05) false false.

(** ** Auxiliary notions of the proofs *)

(** Both running averages are finite and non-negative. *)
Definition averages_ok (acc : num * num) : Prop :=
  exists g l : Q, acc = (Fin g, Fin l) /\ 0 <= g /\ 0 <= l.

(** The order of a list sorted ascending by a rational key. *)
Definition key_le {A : Type} (key : A -> Q) (a b : A) : Prop :=
  key a <= key b.

(** A finite timestamp, and its value. *)
Definition finite_timestamp (p : OpenInterestPoint) : Prop :=
  JS.isFinite (timestamp p) = true.

Definition timestamp_of (p : OpenInterestPoint) : Q :=
  match timestamp p with
  | JS.Fin t => t
  | _ => 0
  end.

(** The timestamps of a history are pairwise distinct. *)
Definition distinct_timestamps (points : list OpenInterestPoint) : Prop :=
  ForallOrdPairs (fun a b => ~ timestamp_of a == timestamp_of b) points.

(** A history given by its (timestamp, open interest) pairs. *)
Definition history (pts : list (Q * Q)) : list OpenInterestPoint :=
  map (fun tv => mkOpenInterestPoint (Fin (snd tv)) (Fin (fst tv))) pts.

(** A square root of the non-negative rationals, rounded down to a millionth
    and exact on the squares of such fractions; it stands for [Math.sqrt]
    where a property is shown at work on concrete values. *)
Definition sqrt_down (x : Q) : Q :=
  let r := Qred x in
  Z.sqrt (Qnum r * Zpos (Qden r) * (1000000 * 1000000))
  # (Qden r * 1000000).

(** The composite score of an evaluated symbol, as a rational. *)
Definition score_of (e : EvaluatedSymbol) : Q :=
  match compositeScore e with
  | JS.Fin q => q
  | _ => 0
  end.

Definition finite_score (e : EvaluatedSymbol) : Prop :=
  JS.isFinite (compositeScore e) = true.

(** The order of a list sorted descending by composite score. *)
Definition score_ge (a b : EvaluatedSymbol) : Prop :=
  score_of b <= score_of a.

(** The floor of the funnel. *)
Definition qualifies (e : EvaluatedSymbol) : bool :=
  JS.ge (compositeScore e) (Fin 55).

(** The evaluation of a symbol fails softly: one of its five requests is
    rejected, or one of its two trend series has fewer than 30 bars. *)
Definition symbol_fails (market : Market) (sym : string) : Prop :=
  fetchKlines market sym "1h" 180 = Rejected
  \/ fetchKlines market sym "4h" 180 = Rejected
  \/ fetchKlines market sym "15m" 180 = Rejected
  \/ fetchPremiumIndex market sym = Rejected
  \/ fetchOpenInterestHist market sym "5m" 12 = Rejected
  \/ (exists klines, fetchKlines market sym "1h" 180 = Resolved klines
                     /\ (length klines < 30)%nat)
  \/ (exists klines, fetchKlines market sym "4h" 180 = Resolved klines
                     /\ (length klines < 30)%nat).

(** *** A small market for the end-to-end scenarios *)

(** [n] hourly candles whose closes rise by 1 from 100, the last one on
    twice the volume of the others. *)
Definition rising_klines (n : nat) : list Kline :=
  map (fun i =>
         let c := inject_Z (Z.of_nat (100 + i)) in
         mkKline (Fin (c + 1)) (Fin (c - 1)) (Fin c)
                 (Fin (if (i =? n - 1)%nat then 2000 else 1000)))
      (seq 0 n).

(** UPUSDT has 30 candles on every timeframe, THINUSDT only 29, and every
    candle request for another symbol is rejected. *)
Definition demo_market : Market :=
  mkMarket
    (Resolved ["UPUSDT"; "THINUSDT"; "DOWNUSDT"]%string)
    (Resolved [])
    (fun sym _ _ =>
       if String.eqb sym "UPUSDT" then Resolved (rising_klines 30)
       else if String.eqb sym "THINUSDT" then Resolved (rising_klines 29)
       else Rejected)
    (fun _ => Resolved (mkPremiumIndex (Fin 0.0001)))
    (fun _ _ _ =>
       Resolved [mkOpenInterestPoint (Fin 102) (Fin 2);
                 mkOpenInterestPoint (Fin 100) (Fin 1)]).

Definition demo_ticker (sym : string) : BaseTickerSnapshot :=
  mkBaseTickerSnapshot sym (Fin 129) (Fin 3) (Fin 5000000) (Fin 40000)
    (Fin 1000) (Fin 130) (Fin 100) (Fin 120).

(** *** Notions of the further properties *)

(** A finite number between two bounds. *)
Definition in_range (lo hi : Q) (x : num) : Prop :=
  exists q : Q, x = Fin q /\ lo <= q <= hi.

(** A number that is not finite: an infinity or [NaN]. *)
Definition not_finite (x : num) : Prop := JS.isFinite x = false.

(** A term capped from above: [NaN], [-Infinity] or a finite value of at most
    [c]. *)
Definition capped (c : Q) (x : num) : Prop :=
  match x with
  | JS.Fin q => q <= c
  | JS.PInf => False
  | _ => True
  end.

(** A term floored at 0: [NaN], [+Infinity] or a finite non-negative value. *)
Definition floored (x : num) : Prop :=
  match x with
  | JS.Fin q => 0 <= q
  | JS.NInf => False
  | _ => True
  end.

(** The confidence tiers in increasing order. *)
Definition confidence_rank (c : Confidence) : nat :=
  match c with
  | Low => 0
  | Medium => 1
  | High => 2
  end.

(** A ticker snapshot all of whose numbers are finite. *)
Definition finite_snapshot (sym : string)
  (last change quote base trades high low vwap : Q) : BaseTickerSnapshot :=
  mkBaseTickerSnapshot sym (Fin last) (Fin change) (Fin quote) (Fin base)
    (Fin trades) (Fin high) (Fin low) (Fin vwap).


(** Both running averages are finite, and the average loss is 0. *)
Definition loss_free (acc : num * num) : Prop :=
  exists g l : Q, acc = (Fin g, Fin l) /\ l == 0.

(** Every value of a series is at least the one before it. *)
Definition non_decreasing (qs : list Q) : Prop :=
  forall i : nat, (1 <= i < length qs)%nat -> nth (i - 1) qs 0 <= nth i qs 0.

(** A value that a sum [total] can contain: a finite sum has only finite
    terms, an infinite sum no [NaN] and no infinity of the other sign. *)
Definition fits (total x : num) : Prop :=
  match total, x with
  | JS.NaN, _ => True
  | JS.Fin _, JS.Fin _ => True
  | JS.PInf, (JS.Fin _ | JS.PInf) => True
  | JS.NInf, (JS.Fin _ | JS.NInf) => True
  | _, _ => False
  end.

(** Two pairs of running averages denote the same values. *)
Definition same_pair (a b : num * num) : Prop :=
  fst a =~ fst b /\ snd a =~ snd b.

(** The first sentence of a reason. *)
Definition headline (d : Direction) : string :=
  match d with
  | Long => "Bullish alignment across 1H/4H EMAs"
  | Short => "Bearish alignment across 1H/4H EMAs"
  end.




(** * Properties *)

(** ** Arithmetic on finite numbers *)

Lemma Qltb_true (a b : Q) : JS.Qltb a b = true <-> a < b.
Proof.
  unfold JS.Qltb. rewrite negb_true_iff, <- not_true_iff_false, Qle_bool_iff.
  split; [apply Qnot_le_lt | apply Qlt_not_le].
Qed.

Lemma Qltb_false (a b : Q) : JS.Qltb a b = false <-> b <= a.
Proof.
  unfold JS.Qltb. rewrite negb_false_iff. apply Qle_bool_iff.
Qed.

Lemma Qeqb_true (a b : Q) : Qeq_bool a b = true <-> a == b.
Proof. apply Qeq_bool_iff. Qed.

Lemma Qeqb_false (a b : Q) : Qeq_bool a b = false <-> ~ a == b.
Proof.
  rewrite <- not_true_iff_false, Qeq_bool_iff. tauto.
Qed.

Lemma Qleb_false (a b : Q) : Qle_bool a b = false <-> b < a.
Proof.
  rewrite <- not_true_iff_false, Qle_bool_iff.
  split; [apply Qnot_le_lt | apply Qlt_not_le].
Qed.

Lemma le_Fin (a b : Q) : JS.le (Fin a) (Fin b) = true <-> a <= b.
Proof.
  unfold JS.le; simpl. rewrite orb_true_iff, Qltb_true, Qeqb_true.
  split; [intros [H | H]; lra | intros H].
  destruct (Qlt_le_dec a b); [now left | right; lra].
Qed.

Lemma le_Fin_false (a b : Q) : JS.le (Fin a) (Fin b) = false <-> b < a.
Proof.
  rewrite <- not_true_iff_false, le_Fin.
  split; [apply Qnot_le_lt | apply Qlt_not_le].
Qed.

Lemma add_Fin (a b : Q) : JS.add (Fin a) (Fin b) = Fin (a + b).
Proof. reflexivity. Qed.

Lemma sub_Fin (a b : Q) : JS.sub (Fin a) (Fin b) = Fin (a - b).
Proof. reflexivity. Qed.

Lemma mul_Fin (a b : Q) : JS.mul (Fin a) (Fin b) = Fin (a * b).
Proof. reflexivity. Qed.

Lemma div_Fin (a b : Q) :
  Qeq_bool b 0 = false -> JS.div (Fin a) (Fin b) = Fin (a / b).
Proof. intros H. unfold JS.div. now rewrite H. Qed.

Lemma min_Fin (a b : Q) :
  JS.min (Fin a) (Fin b) = if JS.Qltb b a then Fin b else Fin a.
Proof. reflexivity. Qed.

Lemma max_Fin (a b : Q) :
  JS.max (Fin a) (Fin b) = if JS.Qltb a b then Fin b else Fin a.
Proof. reflexivity. Qed.

Lemma abs_Fin (a : Q) : JS.abs (Fin a) = Fin (Qabs a).
Proof. reflexivity. Qed.

Lemma sign_Fin (a : Q) : JS.sign (Fin a) = Fin (inject_Z (JS.Qsgn a)).
Proof. reflexivity. Qed.

Lemma lt_Fin (a b : Q) : JS.lt (Fin a) (Fin b) = JS.Qltb a b.
Proof. reflexivity. Qed.

Lemma gt_Fin (a b : Q) : JS.gt (Fin a) (Fin b) = JS.Qltb b a.
Proof. reflexivity. Qed.

Lemma eq_Fin (a b : Q) : JS.eq (Fin a) (Fin b) = Qeq_bool a b.
Proof. reflexivity. Qed.

Lemma ge_Fin (a b : Q) : JS.ge (Fin a) (Fin b) = JS.le (Fin b) (Fin a).
Proof. reflexivity. Qed.

Create Rewrite HintDb fin.

(** The operations are evaluated by the rewriting rules above only. *)
Arguments JS.add : simpl never.
Arguments JS.sub : simpl never.
Arguments JS.mul : simpl never.
Arguments JS.div : simpl never.
Arguments JS.min : simpl never.
Arguments JS.max : simpl never.
Arguments JS.abs : simpl never.
Arguments JS.sign : simpl never.
Arguments JS.lt : simpl never.
Arguments JS.gt : simpl never.
Arguments JS.le : simpl never.
Arguments JS.ge : simpl never.
Arguments JS.eq : simpl never.
Arguments JS.sqrt : simpl never.
Arguments JS.Qltb : simpl never.

#[local] Hint Rewrite add_Fin sub_Fin mul_Fin min_Fin max_Fin abs_Fin
  sign_Fin lt_Fin gt_Fin eq_Fin ge_Fin : fin.
#[local] Hint Rewrite div_Fin using reflexivity : fin.

(** Turns the comparisons of finite numbers in the context and the goal into
    order facts on [Q]. *)
Ltac order_facts :=
  repeat match goal with
  | H : JS.Qltb _ _ = true |- _ => apply Qltb_true in H
  | H : JS.Qltb _ _ = false |- _ => apply Qltb_false in H
  | H : Qeq_bool _ _ = true |- _ => apply Qeqb_true in H
  | H : Qeq_bool _ _ = false |- _ => apply Qeqb_false in H
  | H : Qle_bool _ _ = true |- _ => apply Qle_bool_iff in H
  | H : Qle_bool _ _ = false |- _ => apply Qleb_false in H
  | H : JS.le (Fin _) (Fin _) = true |- _ => apply le_Fin in H
  | H : JS.le (Fin _) (Fin _) = false |- _ => apply le_Fin_false in H
  end.

(** Splits on one comparison the goal branches on. *)
Ltac split_test :=
  match goal with
  | |- context [if JS.Qltb ?a ?b then _ else _] =>
      let E := fresh "E" in destruct (JS.Qltb a b) eqn:E
  | |- context [if Qeq_bool ?a ?b then _ else _] =>
      let E := fresh "E" in destruct (Qeq_bool a b) eqn:E
  | |- context [if Qle_bool ?a ?b then _ else _] =>
      let E := fresh "E" in destruct (Qle_bool a b) eqn:E
  | |- context [if JS.le (Fin ?a) (Fin ?b) then _ else _] =>
      let E := fresh "E" in destruct (JS.le (Fin a) (Fin b)) eqn:E
  end.

(** Evaluates operations on finite numbers, case by case. *)
Ltac fin_eval := repeat (autorewrite with fin; try split_test).

(** Replaces [Qabs], [Qmin] and [Qmax] by their defining cases. *)
Lemma Qabs_spec (x : Q) :
  (x < 0 /\ Qabs x == - x) \/ (0 <= x /\ Qabs x == x).
Proof.
  destruct (Qlt_le_dec x 0) as [H | H].
  - left. split; [assumption | apply Qabs_neg; lra].
  - right. split; [assumption | now apply Qabs_pos].
Qed.

Ltac name_cases t lemma :=
  let H := fresh "Hc" in
  let m := fresh "m" in
  pose proof lemma as H; set (m := t) in *; clearbody m;
  destruct H as [[? ?] | [? ?]].

Ltac minmax_cases :=
  repeat match goal with
  | |- context [Qabs ?x] => name_cases (Qabs x) (Qabs_spec x)
  | |- context [Qmin ?x ?y] => name_cases (Qmin x y) (Q.min_spec x y)
  | |- context [Qmax ?x ?y] => name_cases (Qmax x y) (Q.max_spec x y)
  | H : context [Qabs ?x] |- _ => name_cases (Qabs x) (Qabs_spec x)
  | H : context [Qmin ?x ?y] |- _ => name_cases (Qmin x y) (Q.min_spec x y)
  | H : context [Qmax ?x ?y] |- _ => name_cases (Qmax x y) (Q.max_spec x y)
  end.

(** ** Trade levels and direction *)

(** C9: for either direction and any finite volatility, the stop multiplier
    is finite and its distance from 1 is [max(volatility/150, 0.012)] capped
    at 0.014; so the distance lies in [0.012, 0.014], the Long multiplier in
    [0.986, 0.988] and the Short multiplier in [1.012, 1.014]. *)
Theorem stopMultiplier_distance (d : Direction) (v : Q) :
  exists m : Q,
    stopMultiplier d (Fin v) = Fin m
    /\ Qabs (1 - m) == Qmin (Qmax (v / 150) 0.012) 0.014
    /\ 0.012 <= Qabs (1 - m) <= 0.014
    /\ match d with
       | Long => 0.986 <= m <= 0.988
       | Short => 1.012 <= m <= 1.014
       end.
Proof.
  destruct d; unfold stopMultiplier; fin_eval;
    eexists; (split; [reflexivity |]); order_facts;
    minmax_cases; repeat split; lra.
Qed.

(** C5: the direction is Long under the Long rule (both trend scores
    non-negative and the 1h RSI at least 48), also when the Short rule holds
    too; it is Short under the Short rule (both non-positive and RSI at most
    52) when the Long rule fails; when neither rule holds it is Long exactly
    when the 1h trend score is at least the 4h one, and Short otherwise. *)
Theorem direction_rules (t1 t4 r : Q) :
  let d := direction (Fin t1) (Fin t4) (Fin r) in
  (long_rule t1 t4 r -> d = Long)
  /\ (short_rule t1 t4 r -> ~ long_rule t1 t4 r -> d = Short)
  /\ (~ long_rule t1 t4 r -> ~ short_rule t1 t4 r ->
      (d = Long <-> t4 <= t1) /\ (d = Short <-> t1 < t4))
  /\ direction (Fin 0) (Fin 0) (Fin 50) = Long.
Proof.
  unfold long_rule, short_rule, direction. autorewrite with fin.
  destruct (JS.le (Fin 0) (Fin t1)) eqn:E1,
           (JS.le (Fin 0) (Fin t4)) eqn:E2,
           (JS.le (Fin 48) (Fin r)) eqn:E3,
           (JS.le (Fin t1) (Fin 0)) eqn:E4,
           (JS.le (Fin t4) (Fin 0)) eqn:E5,
           (JS.le (Fin r) (Fin 52)) eqn:E6,
           (JS.le (Fin t4) (Fin t1)) eqn:E7;
    simpl; order_facts;
    repeat split; intros; try reflexivity; try discriminate; try lra;
    exfalso; intuition lra.
Qed.

(** ** Movement-state classification *)

Lemma Qsgn_cases (a : Q) :
  (JS.Qsgn a = 1%Z /\ 0 < a) \/ (JS.Qsgn a = 0%Z /\ a == 0)
  \/ (JS.Qsgn a = (-1)%Z /\ a < 0).
Proof.
  destruct a as [n d]. unfold JS.Qsgn, Qlt, Qeq. simpl.
  destruct n; simpl; [right; left | left | right; right]; split; lia.
Qed.

Lemma sign_agree (a b : Q) :
  JS.eq (JS.sign (Fin a)) (JS.sign (Fin b)) = true <-> same_sign a b.
Proof.
  autorewrite with fin. rewrite Qeqb_true, inject_Z_injective.
  unfold same_sign.
  destruct (Qsgn_cases a) as [[Ha Ha'] | [[Ha Ha'] | [Ha Ha']]],
           (Qsgn_cases b) as [[Hb Hb'] | [[Hb Hb'] | [Hb Hb']]];
    rewrite Ha, Hb; split; intros H; try discriminate; try tauto;
    exfalso; intuition lra.
Qed.

Lemma strongMomentum_spec (r : Readings) (b1 b4 : Breakout) :
  strongMomentum (status_params r b1 b4) = true <-> strong_momentum r.
Proof.
  unfold strongMomentum, strong_momentum, status_params; simpl.
  rewrite !andb_true_iff, sign_agree. autorewrite with fin.
  rewrite !Qltb_true. tauto.
Qed.

Lemma alignedMomentum_spec (r : Readings) (b1 b4 : Breakout) :
  alignedMomentum (status_params r b1 b4) = true <-> aligned_momentum r.
Proof.
  unfold alignedMomentum, aligned_momentum, status_params; simpl.
  rewrite orb_true_iff, !andb_true_iff. autorewrite with fin.
  rewrite !Qltb_true. tauto.
Qed.

(** C2: the three tiers are tried in order and the first that matches wins:
    "Moving Now" exactly when strong momentum holds or both breakout flags
    are set with volatility above 2.5; failing that, "About To Move" exactly
    when aligned momentum, EMA-trend sign agreement, MACD-histogram sign
    agreement and RSI bias agreement all hold; "Likely in 24H" otherwise. *)
Theorem determineMovementStatus_tiers (r : Readings) (b1 b4 : Breakout) :
  let status := determineMovementStatus (status_params r b1 b4) in
  (status = MovingNow <-> moving_now r)
  /\ (status = AboutToMove <-> ~ moving_now r /\ about_to_move r)
  /\ (status = LikelyIn24H <-> ~ moving_now r /\ ~ about_to_move r).
Proof.
  assert (T1 :
    strongMomentum (status_params r b1 b4)
    || (isBreakout (sp_breakout (status_params r b1 b4)) &&
        isBreakout (sp_longerBreakout (status_params r b1 b4)) &&
        JS.gt (sp_volatility (status_params r b1 b4)) (Fin 2.5)) = true
    <-> moving_now r).
  { unfold moving_now.
    rewrite orb_true_iff, !andb_true_iff, strongMomentum_spec. simpl.
    autorewrite with fin. rewrite Qltb_true. tauto. }
  assert (T2 :
    alignedMomentum (status_params r b1 b4) &&
    JS.eq (JS.sign (sp_emaTrend1h (status_params r b1 b4)))
          (JS.sign (sp_emaTrend4h (status_params r b1 b4))) &&
    JS.eq (JS.sign (sp_macdHist1h (status_params r b1 b4)))
          (JS.sign (sp_macdHist4h (status_params r b1 b4))) &&
    ((JS.gt (sp_rsi1h (status_params r b1 b4)) (Fin 52) &&
      JS.gt (sp_rsi4h (status_params r b1 b4)) (Fin 50))
     || (JS.lt (sp_rsi1h (status_params r b1 b4)) (Fin 48) &&
         JS.lt (sp_rsi4h (status_params r b1 b4)) (Fin 50))) = true
    <-> about_to_move r).
  { unfold about_to_move, rsi_bias.
    rewrite !andb_true_iff, orb_true_iff, !andb_true_iff,
      alignedMomentum_spec.
    change (sp_emaTrend1h (status_params r b1 b4)) with (Fin (r_emaTrend1h r)).
    change (sp_emaTrend4h (status_params r b1 b4)) with (Fin (r_emaTrend4h r)).
    change (sp_macdHist1h (status_params r b1 b4)) with (Fin (r_macdHist1h r)).
    change (sp_macdHist4h (status_params r b1 b4)) with (Fin (r_macdHist4h r)).
    rewrite !sign_agree. simpl. autorewrite with fin.
    rewrite !Qltb_true. tauto. }
  unfold determineMovementStatus.
  destruct (strongMomentum _ || _).
  - assert (M1 : moving_now r) by (now apply T1).
    split; [| split]; split; intros H; try discriminate H; try reflexivity;
      tauto.
  - assert (N1 : ~ moving_now r) by (intros H; apply T1 in H; discriminate).
    match goal with |- context [if ?c then AboutToMove else _] =>
      destruct c end.
    + assert (M2 : about_to_move r) by (now apply T2).
      split; [| split]; split; intros H; try discriminate H; try reflexivity;
      tauto.
    + assert (N2 : ~ about_to_move r)
        by (intros H; apply T2 in H; discriminate).
      split; [| split]; split; intros H; try discriminate H; try reflexivity;
      tauto.
Qed.

(** ** Composite score *)

Lemma min_Qmin (a b : Q) : JS.min (Fin a) (Fin b) = Fin (Qmin a b).
Proof.
  rewrite min_Fin. unfold Qmin, GenericMinMax.gmin.
  destruct (Qcompare_spec a b) as [H | H | H].
  - rewrite (proj2 (Qltb_false b a)) by lra. reflexivity.
  - rewrite (proj2 (Qltb_false b a)) by lra. reflexivity.
  - rewrite (proj2 (Qltb_true b a)) by lra. reflexivity.
Qed.

Lemma max_Qmax (a b : Q) : JS.max (Fin a) (Fin b) = Fin (Qmax a b).
Proof.
  rewrite max_Fin. unfold Qmax, GenericMinMax.gmax.
  destruct (Qcompare_spec a b) as [H | H | H].
  - rewrite (proj2 (Qltb_false a b)) by lra. reflexivity.
  - rewrite (proj2 (Qltb_true a b)) by lra. reflexivity.
  - rewrite (proj2 (Qltb_false a b)) by lra. reflexivity.
Qed.

Lemma sign_eq_agree (a b : Q) :
  JS.eq (JS.sign (Fin a)) (JS.sign (Fin b)) = agree a b.
Proof.
  autorewrite with fin. unfold agree.
  destruct (Z.eqb_spec (JS.Qsgn a) (JS.Qsgn b)) as [H | H].
  - apply Qeqb_true. now rewrite H.
  - apply Qeqb_false. now rewrite inject_Z_injective.
Qed.

(** On finite parameters the sum is finite, with the value the
    specification words. *)
Lemma compositeSum_finite (r : Readings) (f : Q) (b1 b4 : Breakout) :
  exists s : Q,
    compositeSum (score_params r f b1 b4) = Fin s /\ s == composite_spec r f.
Proof.
  unfold compositeSum, score_params; cbn [cp_volSpike1h cp_volSpike15m
    cp_emaTrend1h cp_emaTrend4h cp_macdHist1h cp_macdHist4h cp_rsi1h cp_rsi4h
    cp_breakout cp_longerBreakout cp_fundingRatePct cp_oiChangePct
    cp_volatility isBreakout].
  rewrite !sign_eq_agree, !abs_Fin, !mul_Fin, !min_Qmin, !sub_Fin, max_Qmax,
    !mul_Fin, !gt_Fin, !lt_Fin.
  fold (rsi_aligned r).
  unfold composite_spec, capped_terms, alignment_bonus, breakout_bonus,
    funding_penalty.
  destruct (rsi_aligned r), (r_breakout r), (r_longerBreakout r),
    (agree (r_emaTrend1h r) (r_emaTrend4h r)),
    (agree (r_macdHist1h r) (r_macdHist4h r));
    try change (Qeq_bool 1 0) with false;
    try change (Qeq_bool 0 0) with true;
    cbv iota; autorewrite with fin;
    (eexists; split; [reflexivity | ring]).
Qed.

(** Names every capped term, keeping its cap and, for a non-negative
    argument, its sign. *)
Ltac cap_terms :=
  repeat match goal with
  | |- context [Qmin ?a ?b] =>
      let m := fresh "m" in
      pose proof (Q.le_min_r a b);
      pose proof (fun H : 0 <= a => Q.min_glb a b 0 H);
      set (m := Qmin a b) in *; clearbody m
  end.

Lemma capped_terms_le (r : Readings) : capped_terms r <= 126.
Proof.
  unfold capped_terms. destruct (rsi_aligned r); cap_terms; lra.
Qed.

Lemma capped_terms_ge (r : Readings) :
  0 <= r_volSpike1h r -> 0 <= r_volSpike15m r -> 0 <= r_volatility r ->
  4 <= capped_terms r.
Proof.
  intros H1 H15 Hv. unfold capped_terms.
  pose proof (Qabs_nonneg (r_emaTrend1h r)).
  pose proof (Qabs_nonneg (r_emaTrend4h r)).
  pose proof (Qabs_nonneg (r_macdHist1h r)).
  pose proof (Qabs_nonneg (r_macdHist4h r)).
  pose proof (Qabs_nonneg (r_oiChangePct r)).
  destruct (rsi_aligned r); cap_terms;
    repeat match goal with
    | H : 0 <= ?a -> 0 <= ?b -> 0 <= ?m |- _ =>
        assert (0 <= m) by (apply H; lra); clear H
    end; lra.
Qed.

Lemma bonuses_bounds (r : Readings) :
  0 <= alignment_bonus r + breakout_bonus r <= 32.4.
Proof.
  unfold alignment_bonus, breakout_bonus.
  destruct (rsi_aligned r), (r_breakout r), (r_longerBreakout r),
    (agree (r_emaTrend1h r) (r_emaTrend4h r)),
    (agree (r_macdHist1h r) (r_macdHist4h r)); lra.
Qed.

Lemma funding_penalty_nonneg (f : Q) : 0 <= funding_penalty f.
Proof.
  unfold funding_penalty. pose proof (Q.le_max_r (Qabs f - 0.03) 0). lra.
Qed.

Lemma funding_penalty_free (f : Q) :
  Qabs f <= 0.03 -> funding_penalty f == 0.
Proof.
  intros H. unfold funding_penalty. rewrite Q.max_r by lra. ring.
Qed.

(** C1, as the code has it: on finite parameters the score is the finite sum
    of the capped terms and the bonuses minus the funding penalty; it is at
    most 158.4, and at least 4 minus the funding penalty when the two
    volume-spike ratios and the volatility are non-negative, hence
    non-negative when moreover the funding rate's magnitude is at most 0.03;
    and on any parameters whose sum is not finite the score is 0. *)
Theorem buildCompositeScore_value :
  (forall (r : Readings) (f : Q) (b1 b4 : Breakout),
      exists s : Q,
        buildCompositeScore (score_params r f b1 b4) = Fin s
        /\ s == composite_spec r f
        /\ s <= 158.4
        /\ (0 <= r_volSpike1h r -> 0 <= r_volSpike15m r ->
            0 <= r_volatility r ->
            4 - funding_penalty f <= s /\ (Qabs f <= 0.03 -> 4 <= s)))
  /\ (forall p : ScoreParams,
        JS.isFinite (compositeSum p) = false ->
        buildCompositeScore p = Fin 0).
Proof.
  split.
  - intros r f b1 b4.
    destruct (compositeSum_finite r f b1 b4) as (s & Hs & Hspec).
    exists s. unfold buildCompositeScore. rewrite Hs. simpl.
    split; [reflexivity |]. split; [assumption |].
    pose proof (capped_terms_le r). pose proof (bonuses_bounds r).
    pose proof (funding_penalty_nonneg f).
    unfold composite_spec in Hspec.
    split; [lra |].
    intros Hv1 Hv15 Hvol. pose proof (capped_terms_ge r Hv1 Hv15 Hvol).
    split; [lra |].
    intros Hf. pose proof (funding_penalty_free f Hf). lra.
  - intros p Hp. unfold buildCompositeScore. now rewrite Hp.
Qed.

(** C1, as stated, fails: in a quiet market with a funding rate of 0.5 %
    the terms and bonuses add up to 47, the penalty is 56.4, and the score
    is -9.4. *)
Lemma buildCompositeScore_negative :
  exists s : Q,
    buildCompositeScore
      (score_params quiet_readings 0.5 no_breakout no_breakout)
    = Fin s
    /\ s == -9.4 /\ s < 0.
Proof.
  eexists. split; [vm_compute; reflexivity |]. split; reflexivity.
Qed.

(** The finiteness check is reached: an infinite funding rate makes the sum
    [-Infinity], and the score 0. *)
Example buildCompositeScore_collapses :
  let p := mkScoreParams (Fin 0) (Fin 1) (Fin 1) (Fin 0) (Fin 0) (Fin 0)
             (Fin 0) (Fin 50) (Fin 50) no_breakout no_breakout
             JS.PInf (Fin 0) (Fin 1) in
  compositeSum p = JS.NInf /\ buildCompositeScore p = Fin 0.
Proof. split; reflexivity. Qed.

(** ** Relative strength index *)

Lemma at_index_Fin (qs : list Q) (i : nat) :
  (i < length qs)%nat ->
  JS.at_index (map Fin qs) i = Fin (nth i qs 0).
Proof.
  intros H. unfold JS.at_index.
  rewrite (nth_indep _ NaN (Fin 0)) by (now rewrite length_map).
  apply (map_nth Fin).
Qed.

Lemma delta_at_Fin (qs : list Q) (i : nat) :
  (i < length qs)%nat ->
  delta_at (map Fin qs) i = Fin (nth i qs 0 - nth (i - 1) qs 0).
Proof.
  intros H. unfold delta_at.
  rewrite !at_index_Fin by lia. reflexivity.
Qed.

Lemma of_nat_nonzero (n : nat) :
  (1 <= n)%nat -> Qeq_bool (inject_Z (Z.of_nat n)) 0 = false.
Proof.
  intros H. apply Qeqb_false. intros E.
  assert (0 < inject_Z (Z.of_nat n)).
  { change 0 with (inject_Z 0). rewrite <- Zlt_Qlt. lia. }
  lra.
Qed.

Lemma of_nat_pos (n : nat) : (1 <= n)%nat -> 1 <= inject_Z (Z.of_nat n).
Proof.
  intros H. change 1 with (inject_Z 1). rewrite <- Zle_Qle. lia.
Qed.

Lemma fold_left_invariant {A B} (P : A -> Prop) (Q : B -> Prop)
  (f : A -> B -> A) (l : list B) (a : A) :
  (forall a b, P a -> Q b -> P (f a b)) ->
  Forall Q l -> P a -> P (fold_left f l a).
Proof.
  intros Hf Hl. revert a.
  induction Hl as [| b l Hb Hl IH]; intros a Ha; simpl; auto.
Qed.

Lemma rsi_sum_ok (qs : list Q) (acc : num * num) (i : nat) :
  averages_ok acc -> (i < length qs)%nat ->
  averages_ok (rsi_sum (map Fin qs) acc i).
Proof.
  intros (g & l & -> & Hg & Hl) Hi. unfold rsi_sum, JS.zero.
  rewrite delta_at_Fin by assumption. autorewrite with fin.
  split_test; order_facts; eexists; eexists;
    (split; [autorewrite with fin; reflexivity | split; lra]).
Qed.

Lemma Qdiv_nonneg (a b : Q) : 0 <= a -> 0 < b -> 0 <= a / b.
Proof.
  intros Ha Hb. apply Qle_shift_div_l; [assumption | lra].
Qed.

Lemma rsi_smooth_ok (qs : list Q) (period : nat) (acc : num * num) (i : nat) :
  (1 <= period)%nat -> averages_ok acc -> (i < length qs)%nat ->
  averages_ok (rsi_smooth (map Fin qs) period acc i).
Proof.
  intros Hp (g & l & -> & Hg & Hl) Hi. unfold rsi_smooth.
  rewrite delta_at_Fin by assumption. unfold JS.of_nat, JS.one, JS.zero.
  pose proof (of_nat_pos period Hp) as Hpos.
  pose proof (of_nat_nonzero period Hp) as Hnz.
  set (p := inject_Z (Z.of_nat period)) in *.
  autorewrite with fin. rewrite !div_Fin by assumption.
  assert (0 <= g * (p - 1)) by (apply Qmult_le_0_compat; lra).
  assert (0 <= l * (p - 1)) by (apply Qmult_le_0_compat; lra).
  split_test; order_facts; eexists; eexists;
    (split; [reflexivity | split; apply Qdiv_nonneg; lra]).
Qed.

Lemma rsi_averages_ok (qs : list Q) (period : nat) :
  (1 <= period)%nat -> (period < length qs)%nat ->
  averages_ok (rsi_averages (map Fin qs) period).
Proof.
  intros Hp Hlen. unfold rsi_averages.
  assert (S1 : averages_ok
                 (fold_left (rsi_sum (map Fin qs)) (seq 1 period)
                            (JS.zero, JS.zero))).
  { apply (fold_left_invariant averages_ok (fun i => (i < length qs)%nat)).
    - intros a b Ha Hb. now apply rsi_sum_ok.
    - apply Forall_forall. intros i Hi. apply in_seq in Hi. lia.
    - exists 0, 0. repeat split; lra. }
  destruct S1 as (g & l & -> & Hg & Hl).
  pose proof (of_nat_pos period Hp) as Hpos.
  pose proof (of_nat_nonzero period Hp) as Hnz.
  unfold JS.of_nat. rewrite !div_Fin by assumption.
  apply (fold_left_invariant averages_ok (fun i => (i < length qs)%nat)).
  - intros a b Ha Hb. now apply rsi_smooth_ok.
  - apply Forall_forall. intros i Hi. apply in_seq in Hi.
    rewrite length_map in Hi. lia.
  - eexists; eexists. split; [reflexivity |].
    split; apply Qdiv_nonneg; lra.
Qed.

(** The last line of [rsi]: for a gain [g >= 0] and a loss [l > 0] the
    value [100 - 100 / (1 + g / l)] lies in [0, 100) and is 0 exactly when
    the gain is 0. *)
Lemma rsi_ratio_range (g l : Q) :
  0 <= g -> 0 < l ->
  let x := 100 - 100 / (1 + g / l) in
  0 <= x /\ x < 100 /\ (x == 0 <-> g == 0).
Proof.
  intros Hg Hl x.
  assert (Hrs : 0 <= g / l) by now apply Qdiv_nonneg.
  assert (Hgl : g / l * l == g) by (field; lra).
  set (rs := g / l) in *.
  assert (Ht : 100 / (1 + rs) * (1 + rs) == 100) by (field; lra).
  assert (Hy : 0 < 100 / (1 + rs)) by (apply Qlt_shift_div_l; lra).
  assert (Hy' : 100 / (1 + rs) <= 100) by (apply Qle_shift_div_r; lra).
  subst x. set (y := 100 / (1 + rs)) in *.
  split; [lra |]. split; [lra |]. split.
  - intros Hx. assert (Ey : y == 100) by lra.
    rewrite Ey in Ht. assert (rs == 0) by lra.
    rewrite <- Hgl. rewrite H. ring.
  - intros E. assert (Ers : rs == 0).
    { subst rs. rewrite E. unfold Qdiv. ring. }
    rewrite Ers in Ht. lra.
Qed.

(** C4, as the code has it: [rsi] is the neutral 50 whenever there are at
    most [period] values; beyond that, on finite values the two smoothed
    averages are finite and non-negative, the result is 80 when the average
    loss is 0, and otherwise lies in [0, 100), being 0 exactly when the
    average gain is 0.  So the result is never outside [0, 100]. *)
Theorem rsi_range (period : nat) (Hp : (1 <= period)%nat) :
  (forall values : list num,
      (length values <= period)%nat -> rsi values period = Fin 50)
  /\ (forall qs : list Q,
        (period < length qs)%nat ->
        exists g l x : Q,
          rsi_averages (map Fin qs) period = (Fin g, Fin l)
          /\ 0 <= g /\ 0 <= l
          /\ rsi (map Fin qs) period = Fin x
          /\ (l == 0 -> x == 80)
          /\ (~ l == 0 -> 0 <= x /\ x < 100 /\ (x == 0 <-> g == 0))
          /\ 0 <= x <= 100).
Proof.
  split.
  - intros values H. unfold rsi.
    now rewrite (proj2 (Nat.leb_le _ _) H).
  - intros qs H.
    destruct (rsi_averages_ok qs period Hp H) as (g & l & E & Hg & Hl).
    exists g, l. unfold rsi.
    rewrite length_map, (proj2 (Nat.leb_gt _ _) H), E.
    unfold JS.zero, JS.one. rewrite eq_Fin.
    destruct (Qeq_bool l 0) eqn:El; order_facts.
    + exists 80. repeat split; try assumption; try lra; try tauto.
    + assert (Hpos : 0 < l) by lra.
      assert (Hrs : 0 <= g / l) by now apply Qdiv_nonneg.
      rewrite (div_Fin g l) by now apply Qeqb_false.
      rewrite add_Fin, div_Fin by (apply Qeqb_false; lra).
      rewrite sub_Fin.
      destruct (rsi_ratio_range g l Hg Hpos) as (H0 & H100 & Hz).
      eexists. repeat split; try eassumption; try reflexivity; try lra;
        try tauto.
Qed.

(** The theorem at work on sixteen rising closes and the default period. *)
Lemma rsi_range_witness :
  (1 <= 14)%nat
  /\ rsi (map Fin [1; 2; 3]) 14 = Fin 50
  /\ exists g l x : Q,
       rsi_averages
         (map Fin [1; 2; 3; 4; 5; 6; 7; 8; 9; 10; 11; 12; 13; 14; 15; 16]) 14
       = (Fin g, Fin l)
       /\ rsi (map Fin [1; 2; 3; 4; 5; 6; 7; 8; 9; 10; 11; 12; 13; 14;
                        15; 16]) 14 = Fin x
       /\ 0 <= x <= 100.
Proof.
  assert (H14 : (1 <= 14)%nat) by lia.
  split; [exact H14 |]. split.
  - apply (proj1 (rsi_range 14 H14)). simpl. lia.
  - destruct (proj2 (rsi_range 14 H14)
               [1; 2; 3; 4; 5; 6; 7; 8; 9; 10; 11; 12; 13; 14; 15; 16])
      as (g & l & x & E & _ & _ & R & _ & _ & B).
    + simpl. lia.
    + exists g, l, x. auto.
Defined.

(** C4, as stated, fails: on sixteen strictly falling closes the average
    loss is 1, not 0, and [rsi] is 0, which is not strictly inside
    (0, 100). *)
Lemma rsi_falling_is_zero :
  let values :=
    map Fin [15; 14; 13; 12; 11; 10; 9; 8; 7; 6; 5; 4; 3; 2; 1; 0] in
  exists g l x : Q,
    rsi_averages values 14 = (Fin g, Fin l)
    /\ l == 1 /\ ~ l == 0
    /\ rsi values 14 = Fin x
    /\ x == 0 /\ ~ 0 < x.
Proof.
  eexists; eexists; eexists.
  split; [vm_compute; reflexivity |].
  split; [reflexivity |]. split; [discriminate |].
  split; [vm_compute; reflexivity |].
  split; [reflexivity |]. intros H; discriminate H.
Qed.

(** ** The stable sort *)

Section SortFacts.
Context {A : Type} (cmp : A -> A -> num).

Lemma sort_insert_perm (x : A) (l : list A) :
  Permutation (sort_insert cmp x l) (x :: l).
Proof.
  induction l as [| y l IH]; simpl; [reflexivity |].
  destruct (JS.gt (cmp x y) JS.zero); [| reflexivity].
  rewrite IH. apply perm_swap.
Qed.

Lemma sort_perm (l : list A) : Permutation (sort cmp l) l.
Proof.
  induction l as [| x l IH]; simpl; [reflexivity |].
  rewrite sort_insert_perm. now constructor.
Qed.

Lemma sort_length (l : list A) : length (sort cmp l) = length l.
Proof. apply Permutation_length, sort_perm. Qed.

(** The comparator orders the elements of [P] by a rational key. *)
Variable key : A -> Q.
Variable P : A -> Prop.
Hypothesis cmp_key :
  forall a b, P a -> P b ->
    (JS.gt (cmp a b) JS.zero = true <-> key b < key a).

Lemma cmp_key_false (a b : A) :
  P a -> P b -> (JS.gt (cmp a b) JS.zero = false <-> key a <= key b).
Proof.
  intros Ha Hb. rewrite <- not_true_iff_false, (cmp_key a b Ha Hb).
  split; [apply Qnot_lt_le | apply Qle_not_lt].
Qed.

Lemma sort_insert_sorted (x : A) (l : list A) :
  P x -> Forall P l ->
  StronglySorted (key_le key) l -> StronglySorted (key_le key) (sort_insert cmp x l).
Proof.
  intros Hx HP Hs. induction Hs as [| y l Hs IH Hy]; simpl.
  - repeat constructor.
  - inversion HP as [| ? ? Py Pl]; subst.
    destruct (JS.gt (cmp x y) JS.zero) eqn:E.
    + apply cmp_key in E; try assumption.
      constructor; [now apply IH |].
      rewrite sort_insert_perm. constructor; [unfold key_le; lra | assumption].
    + apply cmp_key_false in E; try assumption.
      constructor; [now constructor |].
      constructor; [assumption |].
      eapply Forall_impl; [| exact Hy].
      unfold key_le. intros a Ha. lra.
Qed.

Lemma sort_sorted (l : list A) :
  Forall P l -> StronglySorted (key_le key) (sort cmp l).
Proof.
  induction 1 as [| x l Hx Hl IH]; simpl; [constructor |].
  apply sort_insert_sorted; try assumption.
  now rewrite sort_perm.
Qed.

(** Stability: the elements of one key class keep their order. *)
Lemma sort_insert_filter (f : A -> bool) (x : A) (l : list A) :
  (forall a b, f a = true -> f b = true -> key a == key b) ->
  P x -> Forall P l ->
  filter f (sort_insert cmp x l) = filter f (x :: l).
Proof.
  intros Hf Hx HP. induction HP as [| y l Py Pl IH]; [reflexivity |].
  simpl. destruct (JS.gt (cmp x y) JS.zero) eqn:E; [| reflexivity].
  apply cmp_key in E; try assumption.
  simpl. rewrite IH. simpl.
  destruct (f x) eqn:Fx, (f y) eqn:Fy; try reflexivity.
  pose proof (Hf x y Fx Fy). lra.
Qed.

Lemma sort_filter (f : A -> bool) (l : list A) :
  (forall a b, f a = true -> f b = true -> key a == key b) ->
  Forall P l ->
  filter f (sort cmp l) = filter f l.
Proof.
  intros Hf HP. induction HP as [| x l Px Pl IH]; [reflexivity |].
  simpl. rewrite sort_insert_filter; try assumption.
  - simpl. now rewrite IH.
  - now rewrite sort_perm.
Qed.

(** With pairwise distinct keys the order of insertion does not matter. *)
Lemma sort_insert_comm (x y : A) (l : list A) :
  P x -> P y -> Forall P l -> ~ key x == key y ->
  sort_insert cmp x (sort_insert cmp y l)
  = sort_insert cmp y (sort_insert cmp x l).
Proof.
  intros Px Py HP Hxy.
  induction HP as [| z l Pz Pl IH]; simpl.
  - destruct (JS.gt (cmp x y) JS.zero) eqn:Exy,
             (JS.gt (cmp y x) JS.zero) eqn:Eyx; try reflexivity.
    + apply cmp_key in Exy, Eyx; try assumption. lra.
    + apply cmp_key_false in Exy, Eyx; try assumption.
      exfalso. apply Hxy. lra.
  - destruct (JS.gt (cmp y z) JS.zero) eqn:Eyz,
             (JS.gt (cmp x z) JS.zero) eqn:Exz; simpl;
      rewrite ?Eyz, ?Exz.
    + now rewrite IH.
    + destruct (JS.gt (cmp y x) JS.zero) eqn:Eyx; [reflexivity |].
      apply cmp_key in Eyz; try assumption.
      apply cmp_key_false in Exz, Eyx; try assumption. lra.
    + destruct (JS.gt (cmp x y) JS.zero) eqn:Exy; [reflexivity |].
      apply cmp_key in Exz; try assumption.
      apply cmp_key_false in Eyz, Exy; try assumption. lra.
    + destruct (JS.gt (cmp x y) JS.zero) eqn:Exy,
               (JS.gt (cmp y x) JS.zero) eqn:Eyx; try reflexivity.
      * apply cmp_key in Exy, Eyx; try assumption. lra.
      * apply cmp_key_false in Exy, Eyx; try assumption.
        exfalso. apply Hxy. lra.
Qed.

Lemma sort_permutation_invariant (l l' : list A) :
  Permutation l l' ->
  Forall P l -> NoDup l ->
  (forall a b, In a l -> In b l -> key a == key b -> a = b) ->
  sort cmp l = sort cmp l'.
Proof.
  induction 1 as [| x l l' Hperm IH | x y l | l l' l'' H1 IH1 H2 IH2];
    intros HP Hnd Hinj.
  - reflexivity.
  - simpl. rewrite IH; [reflexivity | | |].
    + now inversion HP.
    + now inversion Hnd.
    + intros a b Ha Hb. apply Hinj; now right.
  - simpl. inversion HP as [| ? ? Py HP']; subst.
    inversion HP' as [| ? ? Px Pl]; subst.
    apply sort_insert_comm; try assumption.
    + now rewrite sort_perm.
    + intros E. apply Hinj in E; [| now left | right; now left].
      inversion Hnd as [| ? ? Hnot _]; subst. apply Hnot. now left.
  - rewrite IH1 by assumption. apply IH2.
    + now rewrite <- H1.
    + now apply (Permutation_NoDup H1).
    + intros a b Ha Hb. apply Hinj; now apply (Permutation_in _ (Permutation_sym H1)).
Qed.
End SortFacts.

(** ** Open-interest delta *)

Lemma by_timestamp_key (a b : OpenInterestPoint) :
  finite_timestamp a -> finite_timestamp b ->
  (JS.gt (JS.sub (timestamp a) (timestamp b)) JS.zero = true
   <-> timestamp_of b < timestamp_of a).
Proof.
  unfold finite_timestamp, timestamp_of, JS.zero.
  destruct (timestamp a) as [ta | | |], (timestamp b) as [tb | | |];
    try discriminate.
  intros _ _. autorewrite with fin. rewrite Qltb_true.
  split; intros H; lra.
Qed.

Lemma last_two {A : Type} (l : list A) :
  (2 <= length l)%nat -> exists init a b, l = init ++ [a; b].
Proof.
  intros H.
  destruct (exists_last (l := l)) as (l1 & b & ->).
  { intros ->. simpl in H. lia. }
  rewrite length_app in H. simpl in H.
  destruct (exists_last (l := l1)) as (init & a & ->).
  { intros ->. simpl in H. lia. }
  exists init, a, b. now rewrite <- app_assoc.
Qed.

Lemma at_index_last_two {A : Type} (f : A -> num) (init : list A) (a b : A) :
  let l := init ++ [a; b] in
  JS.at_index (map f l) (length l - 1) = f b
  /\ JS.at_index (map f l) (length l - 2) = f a.
Proof.
  simpl. unfold JS.at_index. rewrite map_app, length_app. simpl.
  split.
  - rewrite app_nth2 by (rewrite length_map; lia).
    rewrite length_map.
    replace (length init + 2 - 1 - length init)%nat with 1%nat by lia.
    reflexivity.
  - rewrite app_nth2 by (rewrite length_map; lia).
    rewrite length_map.
    replace (length init + 2 - 2 - length init)%nat with 0%nat by lia.
    reflexivity.
Qed.

Lemma distinct_timestamps_NoDup (points : list OpenInterestPoint) :
  distinct_timestamps points ->
  NoDup points
  /\ (forall a b, In a points -> In b points ->
        timestamp_of a == timestamp_of b -> a = b).
Proof.
  induction 1 as [| x l Hx Hl [IHn IHi]].
  - split; [constructor | intros ? ? []].
  - rewrite Forall_forall in Hx. split.
    + constructor; [| assumption].
      intros Hin. apply (Hx x Hin). reflexivity.
    + intros a b [-> | Ha] [-> | Hb] E; auto.
      * exfalso. now apply (Hx b Hb).
      * exfalso. apply (Hx a Ha). now symmetry.
Qed.

(** C7: the delta is 0 for a history of fewer than 2 points; otherwise the
    points are sorted ascending by timestamp, and with [prev] and [latest]
    the last two of the sorted history the delta is 0 when the open interest
    of [prev] is 0 and [100 * (latest - prev) / prev] otherwise; so, when the
    timestamps are pairwise distinct, the delta is the same for every
    permutation of the history. *)
Theorem calculateOpenInterestDelta_sorted :
  (forall points : list OpenInterestPoint,
      (length points < 2)%nat -> calculateOpenInterestDelta points = Fin 0)
  /\ (forall points : list OpenInterestPoint,
        (2 <= length points)%nat -> Forall finite_timestamp points ->
        exists init prev latest,
          Permutation points (init ++ [prev; latest])
          /\ StronglySorted (key_le timestamp_of) (init ++ [prev; latest])
          /\ (JS.eq (sumOpenInterest prev) (Fin 0) = true ->
              calculateOpenInterestDelta points = Fin 0)
          /\ (forall p l : Q,
                sumOpenInterest prev = Fin p ->
                sumOpenInterest latest = Fin l -> ~ p == 0 ->
                exists x : Q,
                  calculateOpenInterestDelta points = Fin x
                  /\ x == 100 * (l - p) / p))
  /\ (forall points points' : list OpenInterestPoint,
        Forall finite_timestamp points -> distinct_timestamps points ->
        Permutation points points' ->
        calculateOpenInterestDelta points'
        = calculateOpenInterestDelta points).
Proof.
  split; [| split].
  - intros points H. unfold calculateOpenInterestDelta.
    now rewrite (proj2 (Nat.ltb_lt _ _) H).
  - intros points Hlen Hfin. unfold calculateOpenInterestDelta.
    rewrite (proj2 (Nat.ltb_ge _ _) Hlen).
    set (cmp := fun a b : OpenInterestPoint =>
                  JS.sub (timestamp a) (timestamp b)).
    pose proof (sort_perm cmp points) as Hperm.
    pose proof (sort_sorted cmp timestamp_of finite_timestamp
                  by_timestamp_key points Hfin) as Hsorted.
    destruct (last_two (sort cmp points)) as (init & prev & latest & E).
    { now rewrite sort_length. }
    rewrite E in *.
    destruct (at_index_last_two sumOpenInterest init prev latest)
      as [-> ->].
    exists init, prev, latest. unfold JS.zero.
    split; [now symmetry |]. split; [assumption |]. split.
    + intros ->. reflexivity.
    + intros p l -> -> Hp. rewrite eq_Fin.
      rewrite (proj2 (Qeqb_false p 0) Hp).
      rewrite sub_Fin, div_Fin, mul_Fin by now apply Qeqb_false.
      eexists. split; [reflexivity |]. field. assumption.
  - intros points points' Hfin Hd Hperm.
    destruct (distinct_timestamps_NoDup points Hd) as [Hnd Hinj].
    unfold calculateOpenInterestDelta.
    rewrite <- (Permutation_length Hperm).
    rewrite <- (sort_permutation_invariant _ timestamp_of finite_timestamp
                  by_timestamp_key points points' Hperm Hfin Hnd Hinj).
    reflexivity.
Qed.

(** A 2-point history under both orders of arrival: the delta is 10 %. *)
Example calculateOpenInterestDelta_two_orders :
  calculateOpenInterestDelta (history [(1, 100); (2, 110)]) =~ Fin 10
  /\ calculateOpenInterestDelta (history [(2, 110); (1, 100)]) =~ Fin 10.
Proof. split; vm_compute; reflexivity. Qed.

(** ** Numbers denoting the same value *)

Lemma same_refl (x : num) : x =~ x.
Proof. destruct x; simpl; auto. reflexivity. Qed.

Lemma same_sym (x y : num) : x =~ y -> y =~ x.
Proof. destruct x, y; simpl; auto. intros H. now symmetry. Qed.

Lemma same_trans (x y z : num) : x =~ y -> y =~ z -> x =~ z.
Proof.
  destruct x, y, z; simpl; auto; try contradiction.
  intros H1 H2. now rewrite H1.
Qed.

#[global] Instance same_equivalence : Equivalence JS.same.
Proof.
  split; [exact same_refl | exact same_sym | exact same_trans].
Qed.

Lemma Qeq_bool_same (a a' b b' : Q) :
  a == a' -> b == b' -> Qeq_bool a b = Qeq_bool a' b'.
Proof.
  intros Ha Hb.
  destruct (Qeq_bool a b) eqn:E, (Qeq_bool a' b') eqn:E';
    try reflexivity; order_facts; exfalso; [apply E' | apply E]; lra.
Qed.

Lemma Qltb_same (a a' b b' : Q) :
  a == a' -> b == b' -> JS.Qltb a b = JS.Qltb a' b'.
Proof.
  intros Ha Hb.
  destruct (JS.Qltb a b) eqn:E, (JS.Qltb a' b') eqn:E';
    try reflexivity; order_facts; lra.
Qed.

Lemma Qle_bool_same (a a' b b' : Q) :
  a == a' -> b == b' -> Qle_bool a b = Qle_bool a' b'.
Proof.
  intros Ha Hb.
  destruct (Qle_bool a b) eqn:E, (Qle_bool a' b') eqn:E';
    try reflexivity; order_facts; lra.
Qed.

(** Reduces a goal on two pairs of equal numbers to the finite cases. *)
Ltac same_cases x x' y y' :=
  destruct x, x', y, y'; unfold JS.same in *;
  try contradiction; try exact I.

#[global] Instance add_same : Proper (JS.same ==> JS.same ==> JS.same) JS.add.
Proof.
  intros x x' Hx y y' Hy. unfold JS.add. same_cases x x' y y'.
  now rewrite Hx, Hy.
Qed.

#[global] Instance neg_same : Proper (JS.same ==> JS.same) JS.neg.
Proof.
  intros x x' Hx. unfold JS.neg. destruct x, x'; unfold JS.same in *;
    try contradiction; try exact I. now rewrite Hx.
Qed.

#[global] Instance sub_same : Proper (JS.same ==> JS.same ==> JS.same) JS.sub.
Proof.
  intros x x' Hx y y' Hy. unfold JS.sub. now rewrite Hx, Hy.
Qed.

#[global] Instance mul_same : Proper (JS.same ==> JS.same ==> JS.same) JS.mul.
Proof.
  intros x x' Hx y y' Hy. unfold JS.mul. same_cases x x' y y';
    try (now rewrite Hx, Hy);
    match goal with
    | H : ?a == ?b |- _ =>
        rewrite (Qeq_bool_same a b 0 0 H (Qeq_refl 0)),
                ?(Qltb_same 0 0 a b (Qeq_refl 0) H),
                ?(Qltb_same a b 0 0 H (Qeq_refl 0))
    end;
    match goal with
    | |- match (if ?c then _ else _) with _ => _ end => destruct c
    end; unfold JS.signed_inf;
    match goal with
    | |- match (if ?c then _ else _) with _ => _ end => destruct c
    | _ => idtac
    end; exact I.
Qed.

#[global] Instance div_same : Proper (JS.same ==> JS.same ==> JS.same) JS.div.
Proof.
  intros x x' Hx y y' Hy. unfold JS.div. same_cases x x' y y'.
  - rewrite (Qeq_bool_same q1 q2 0 0 Hy (Qeq_refl 0)),
            (Qeq_bool_same q q0 0 0 Hx (Qeq_refl 0)),
            (Qltb_same 0 0 q q0 (Qeq_refl 0) Hx).
    destruct (Qeq_bool q2 0) eqn:E.
    + destruct (Qeq_bool q0 0); [exact I |].
      unfold JS.signed_inf. destruct (JS.Qltb 0 q0); exact I.
    + order_facts. now rewrite Hx, Hy.
  - reflexivity.
  - reflexivity.
  - rewrite (Qle_bool_same 0 0 q q0 (Qeq_refl 0) Hy).
    unfold JS.signed_inf. destruct (Qle_bool 0 q0); exact I.
  - rewrite (Qltb_same q q0 0 0 Hy (Qeq_refl 0)).
    unfold JS.signed_inf. destruct (JS.Qltb q0 0); exact I.
Qed.

Lemma of_nat_length_nonzero {A : Type} (l : list A) :
  l <> [] -> Qeq_bool (inject_Z (Z.of_nat (length l))) 0 = false.
Proof.
  intros H. apply of_nat_nonzero. destruct l; [contradiction | simpl; lia].
Qed.

Lemma sum_Fin (qs : list Q) (a : Q) :
  fold_left JS.add (map Fin qs) (Fin a) = Fin (fold_left Qplus qs a).
Proof.
  revert a. induction qs as [| q qs IH]; intros a; simpl; [reflexivity |].
  rewrite add_Fin. apply IH.
Qed.

Lemma Qsquare_nonneg (x : Q) : 0 <= x * x.
Proof. nra. Qed.

Lemma squares_Fin (m : Q) (qs : list Q) (a : Q) :
  0 <= a ->
  exists v : Q,
    fold_left (fun acc val => JS.add acc (JS.sq (JS.sub val (Fin m))))
              (map Fin qs) (Fin a) = Fin v
    /\ 0 <= v.
Proof.
  revert a. induction qs as [| q qs IH]; intros a Ha; simpl.
  - now exists a.
  - unfold JS.sq. rewrite sub_Fin, mul_Fin, add_Fin. apply IH.
    pose proof (Qsquare_nonneg (q - m)). lra.
Qed.

Lemma simple_returns_length (closes : list num) :
  length (simple_returns closes) = (length closes - 1)%nat.
Proof.
  induction closes as [| a [| b rest] IH]; try reflexivity.
  change (S (length (simple_returns (b :: rest)))
          = (length (a :: b :: rest) - 1)%nat).
  rewrite IH. simpl. lia.
Qed.

(** ** Standard deviation and volatility *)

Section Volatility.

Variable sqrtQ : Q -> Q.
Hypothesis sqrtQ_same : forall x y : Q, x == y -> sqrtQ x == sqrtQ y.
Hypothesis sqrtQ_nonneg : forall x : Q, 0 <= x -> 0 <= sqrtQ x.

Lemma sqrt_same (x y : num) :
  x =~ y -> JS.sqrt sqrtQ x =~ JS.sqrt sqrtQ y.
Proof.
  intros H. unfold JS.sqrt. destruct x, y; unfold JS.same in *;
    try contradiction; try exact I.
  rewrite (Qltb_same q q0 0 0 H (Qeq_refl 0)).
  destruct (JS.Qltb q0 0); [exact I | now apply sqrtQ_same].
Qed.

Lemma fold_add_same (xs ys : list num) (a b : num) :
  Forall2 JS.same xs ys -> a =~ b ->
  fold_left JS.add xs a =~ fold_left JS.add ys b.
Proof.
  intros H. revert a b.
  induction H as [| x y xs ys Hxy Hrest IH]; intros a b Hab; simpl;
    [assumption |].
  apply IH. now rewrite Hab, Hxy.
Qed.

Lemma fold_squares_same (m m' : num) (xs ys : list num) (a b : num) :
  m =~ m' -> Forall2 JS.same xs ys -> a =~ b ->
  fold_left (fun acc val => JS.add acc (JS.sq (JS.sub val m))) xs a
  =~ fold_left (fun acc val => JS.add acc (JS.sq (JS.sub val m'))) ys b.
Proof.
  intros Hm H. revert a b.
  induction H as [| x y xs ys Hxy Hrest IH]; intros a b Hab; simpl;
    [assumption |].
  apply IH. unfold JS.sq. now rewrite Hab, Hxy, Hm.
Qed.

Lemma standardDeviation_same (xs ys : list num) :
  Forall2 JS.same xs ys ->
  standardDeviation sqrtQ xs =~ standardDeviation sqrtQ ys.
Proof.
  intros H. unfold standardDeviation, sum.
  rewrite (Forall2_length H).
  apply sqrt_same.
  apply div_same; [| reflexivity].
  apply fold_squares_same; try assumption; try reflexivity.
  apply div_same; [| reflexivity].
  apply fold_add_same; [assumption | reflexivity].
Qed.

Lemma simple_returns_scaled (c : Q) (qs : list Q) :
  0 < c -> Forall (fun q => 0 < q) qs ->
  Forall2 JS.same (simple_returns (map Fin (map (Qmult c) qs)))
                  (simple_returns (map Fin qs)).
Proof.
  intros Hc H. induction H as [| a qs Ha Hqs IH]; [constructor |].
  destruct qs as [| b rest]; [constructor |].
  change (Forall2 JS.same
            (JS.div (JS.sub (Fin (c * b)) (Fin (c * a))) (Fin (c * a))
             :: simple_returns (map Fin (map (Qmult c) (b :: rest))))
            (JS.div (JS.sub (Fin b) (Fin a)) (Fin a)
             :: simple_returns (map Fin (b :: rest)))).
  constructor; [| exact IH].
  assert (Hca : 0 < c * a) by (apply Qmult_lt_0_compat; assumption).
  rewrite !sub_Fin, !div_Fin by (apply Qeqb_false; lra).
  simpl. field. split; lra.
Qed.

(** C8: with fewer than 2 closes the volatility is 0; and for at least 2
    positive closes, scaling every close by one positive constant leaves the
    volatility unchanged. *)
Theorem volatilityPercent_scale_invariant :
  (forall closes : list num,
      (length closes < 2)%nat -> volatilityPercent sqrtQ closes = Fin 0)
  /\ (forall (qs : list Q) (c : Q),
        (2 <= length qs)%nat -> Forall (fun q => 0 < q) qs -> 0 < c ->
        volatilityPercent sqrtQ (map Fin (map (Qmult c) qs))
        =~ volatilityPercent sqrtQ (map Fin qs)).
Proof.
  split.
  - intros closes H. unfold volatilityPercent.
    now rewrite (proj2 (Nat.ltb_lt _ _) H).
  - intros qs c Hlen Hpos Hc. unfold volatilityPercent.
    rewrite !length_map, (proj2 (Nat.ltb_ge _ _) Hlen).
    pose proof (simple_returns_scaled c qs Hc Hpos) as Hret.
    rewrite (Forall2_length Hret).
    apply mul_same; [| reflexivity].
    apply mul_same; [| reflexivity].
    now apply standardDeviation_same.
Qed.

(** C10: on a non-empty list of finite values the standard deviation is
    finite and non-negative; on the empty list the mean is [0 / 0] and the
    result is [NaN], not a finite number; [volatilityPercent] answers 0
    without calling it when there are fewer than 2 closes, and otherwise
    calls it on the list of returns, which is then non-empty. *)
Theorem standardDeviation_guarded :
  (forall qs : list Q,
      qs <> [] ->
      exists x : Q, standardDeviation sqrtQ (map Fin qs) = Fin x /\ 0 <= x)
  /\ standardDeviation sqrtQ [] = NaN
  /\ JS.isFinite (standardDeviation sqrtQ []) = false
  /\ (forall closes : list num,
        ((length closes < 2)%nat -> volatilityPercent sqrtQ closes = Fin 0)
        /\ ((2 <= length closes)%nat ->
            simple_returns closes <> []
            /\ volatilityPercent sqrtQ closes
               = JS.mul
                   (JS.mul (standardDeviation sqrtQ (simple_returns closes))
                      (JS.sqrt sqrtQ
                         (JS.of_nat (length (simple_returns closes)))))
                   (Fin 100))).
Proof.
  split; [| split; [reflexivity | split; [reflexivity |]]].
  - intros qs Hne. unfold standardDeviation, sum, JS.zero, JS.of_nat.
    rewrite length_map, sum_Fin.
    pose proof (of_nat_length_nonzero qs Hne) as Hnz.
    assert (Hn : 1 <= inject_Z (Z.of_nat (length qs))).
    { apply of_nat_pos. destruct qs; [contradiction | simpl; lia]. }
    rewrite div_Fin by assumption.
    destruct (squares_Fin (fold_left Qplus qs 0
                           / inject_Z (Z.of_nat (length qs))) qs 0)
      as (v & -> & Hv); [lra |].
    rewrite div_Fin by assumption.
    assert (Hvar : 0 <= v / inject_Z (Z.of_nat (length qs)))
      by (apply Qdiv_nonneg; lra).
    unfold JS.sqrt. rewrite (proj2 (Qltb_false _ _) Hvar).
    eexists. split; [reflexivity |]. now apply sqrtQ_nonneg.
  - intros closes. split.
    + intros H. unfold volatilityPercent.
      now rewrite (proj2 (Nat.ltb_lt _ _) H).
    + intros H. split.
      * intros E. pose proof (simple_returns_length closes) as L.
        rewrite E in L. simpl in L. lia.
      * unfold volatilityPercent.
        now rewrite (proj2 (Nat.ltb_ge _ _) H).
Qed.

End Volatility.

(** *** The properties at work with a concrete square root *)

Lemma sqrt_down_same (x y : Q) : x == y -> sqrt_down x == sqrt_down y.
Proof.
  intros H. unfold sqrt_down. rewrite (Qred_complete x y H). reflexivity.
Qed.

Lemma sqrt_down_nonneg (x : Q) : 0 <= x -> 0 <= sqrt_down x.
Proof.
  intros _. unfold sqrt_down, Qle. simpl. rewrite Z.mul_1_r.
  apply Z.sqrt_nonneg.
Qed.

Example standardDeviation_of_0_10 :
  standardDeviation sqrt_down (map Fin [0; 10]) =~ Fin 5.
Proof. vm_compute. reflexivity. Qed.

Lemma volatilityPercent_scale_invariant_witness :
  (forall x y : Q, x == y -> sqrt_down x == sqrt_down y)
  /\ volatilityPercent sqrt_down [Fin 100] = Fin 0
  /\ volatilityPercent sqrt_down (map Fin (map (Qmult 3) [100; 110; 99]))
     =~ volatilityPercent sqrt_down (map Fin [100; 110; 99]).
Proof.
  split; [exact sqrt_down_same |].
  destruct (volatilityPercent_scale_invariant sqrt_down sqrt_down_same)
    as [Hshort Hscale].
  split.
  - apply Hshort. simpl. lia.
  - apply Hscale.
    + simpl. lia.
    + repeat constructor.
    + reflexivity.
Defined.

Lemma standardDeviation_guarded_witness :
  (forall x : Q, 0 <= x -> 0 <= sqrt_down x)
  /\ (exists x : Q,
        standardDeviation sqrt_down (map Fin [0; 10]) = Fin x /\ 0 <= x)
  /\ standardDeviation sqrt_down [] = NaN
  /\ simple_returns (map Fin [100; 110]) <> [].
Proof.
  split; [exact sqrt_down_nonneg |].
  destruct (standardDeviation_guarded sqrt_down sqrt_down_nonneg)
    as (Hfin & Hempty & _ & Hvol).
  split; [| split].
  - apply Hfin. discriminate.
  - exact Hempty.
  - apply (Hvol (map Fin [100; 110])). simpl. lia.
Defined.

(** ** Ranking funnel *)

Lemma buildCompositeScore_isFinite (p : ScoreParams) :
  JS.isFinite (buildCompositeScore p) = true.
Proof.
  unfold buildCompositeScore.
  destruct (JS.isFinite (compositeSum p)) eqn:E; [assumption | reflexivity].
Qed.

Lemma bind_resolved {A B : Type} (p : promise A) (k : A -> promise B) (b : B) :
  bind p k = Resolved b -> exists a, p = Resolved a /\ k a = Resolved b.
Proof.
  destruct p as [a |]; simpl; [| discriminate]. intros H. now exists a.
Qed.

(** What a successful evaluation tells about its inputs and its record. *)
Lemma evaluateSymbol_some (sqrtQ : Q -> Q) (market : Market)
  (ticker : BaseTickerSnapshot) (e : EvaluatedSymbol) :
  evaluateSymbol sqrtQ market ticker = Resolved (Some e) ->
  es_symbol e = symbol ticker
  /\ finite_score e
  /\ ~ symbol_fails market (symbol ticker).
Proof.
  unfold evaluateSymbol. intros H.
  apply bind_resolved in H. destruct H as (k1 & F1 & H).
  apply bind_resolved in H. destruct H as (k4 & F4 & H).
  apply bind_resolved in H. destruct H as (k15 & F15 & H).
  apply bind_resolved in H. destruct H as (pr & Fp & H).
  apply bind_resolved in H. destruct H as (oi & Fo & H).
  destruct ((length k1 <? 30) || (length k4 <? 30))%nat eqn:G;
    [discriminate |].
  apply orb_false_iff in G. destruct G as [G1 G4].
  apply Nat.ltb_ge in G1, G4.
  injection H as <-. cbn [es_symbol compositeScore].
  split; [reflexivity |]. split.
  - apply buildCompositeScore_isFinite.
  - unfold symbol_fails. rewrite F1, F4, F15, Fp, Fo.
    intros [D | [D | [D | [D | [D | [(k & D & L) | (k & D & L)]]]]]];
      try discriminate; injection D as <-; lia.
Qed.

Lemma evaluateSymbol_fails (sqrtQ : Q -> Q) (market : Market)
  (ticker : BaseTickerSnapshot) :
  symbol_fails market (symbol ticker) ->
  catch_null (evaluateSymbol sqrtQ market ticker) = None.
Proof.
  intros Hfail.
  destruct (evaluateSymbol sqrtQ market ticker) as [[e |] |] eqn:E;
    try reflexivity.
  apply evaluateSymbol_some in E. tauto.
Qed.

Lemma non_null_app {A : Type} (xs ys : list (option A)) :
  non_null (xs ++ ys) = non_null xs ++ non_null ys.
Proof.
  induction xs as [| [a |] xs IH]; simpl; [reflexivity | | assumption].
  now rewrite IH.
Qed.

Lemma in_non_null {A : Type} (a : A) (xs : list (option A)) :
  In a (non_null xs) <-> In (Some a) xs.
Proof.
  induction xs as [| [b |] xs IH]; simpl.
  - tauto.
  - rewrite IH. split; intros [H | H]; auto; left; congruence.
  - rewrite IH. split; [auto | intros [H | H]; [discriminate | auto]].
Qed.

(** Every settled evaluation that is kept comes from a ticker of the
    shortlist. *)
Lemma in_candidates (sqrtQ : Q -> Q) (market : Market)
  (tickers : list BaseTickerSnapshot) (e : EvaluatedSymbol) :
  In e (non_null (settle sqrtQ market tickers)) <->
  exists ticker, In ticker tickers
                 /\ evaluateSymbol sqrtQ market ticker = Resolved (Some e).
Proof.
  rewrite in_non_null. unfold settle. rewrite in_map_iff.
  split; intros (t & H1 & H2); exists t.
  - split; [assumption |].
    destruct (evaluateSymbol sqrtQ market t) as [r |]; simpl in H1;
      [now subst | discriminate].
  - split; [| assumption]. now rewrite H2.
Qed.

Lemma candidates_finite (sqrtQ : Q -> Q) (market : Market)
  (tickers : list BaseTickerSnapshot) :
  Forall finite_score (non_null (settle sqrtQ market tickers)).
Proof.
  apply Forall_forall. intros e He.
  apply in_candidates in He. destruct He as (t & _ & E).
  now apply evaluateSymbol_some in E.
Qed.

Lemma by_score_key (a b : EvaluatedSymbol) :
  finite_score a -> finite_score b ->
  (JS.gt (JS.sub (compositeScore b) (compositeScore a)) JS.zero = true
   <-> - score_of b < - score_of a).
Proof.
  unfold finite_score, score_of, JS.zero.
  destruct (compositeScore a) as [sa | | |],
           (compositeScore b) as [sb | | |]; try discriminate.
  intros _ _. autorewrite with fin. rewrite Qltb_true.
  split; intros H; lra.
Qed.

Lemma qualifies_spec (e : EvaluatedSymbol) :
  finite_score e -> (qualifies e = true <-> 55 <= score_of e).
Proof.
  unfold finite_score, qualifies, score_of.
  destruct (compositeScore e) as [s | | |]; try discriminate.
  intros _. rewrite ge_Fin. apply le_Fin.
Qed.

Lemma StronglySorted_weaken {A : Type} (R R' : A -> A -> Prop) (l : list A) :
  (forall a b, R a b -> R' a b) ->
  StronglySorted R l -> StronglySorted R' l.
Proof.
  intros HR. induction 1 as [| a l Hs IH Ha]; constructor; auto.
  eapply Forall_impl; [| exact Ha]. auto.
Qed.

Lemma Forall_firstn {A : Type} (P : A -> Prop) (n : nat) (l : list A) :
  Forall P l -> Forall P (firstn n l).
Proof.
  intros H. rewrite <- (firstn_skipn n l) in H.
  now apply Forall_app in H.
Qed.

Lemma same_score_class (s : num) (a b : EvaluatedSymbol) :
  JS.eq (compositeScore a) s = true -> JS.eq (compositeScore b) s = true ->
  - score_of a == - score_of b.
Proof.
  unfold score_of, JS.eq.
  destruct (compositeScore a), (compositeScore b), s;
    try discriminate; try reflexivity.
  intros Ha Hb. order_facts. lra.
Qed.

(** C3: of the evaluations of one pass [evaluated] keeps exactly those with
    a composite score of at least 55, sorted descending by score, entries of
    equal score in their order of arrival; movers are its first 5 and
    strongest its first 3 entries, so they have at most 5 and 3 entries, all
    of score at least 55, and strongest is a prefix of movers; when nothing
    qualifies the answer is the "no trade" message with both views empty,
    not an error. *)
Theorem ranking_funnel (sqrtQ : Q -> Q) (market : Market)
  (tickers : list BaseTickerSnapshot) :
  let candidates := non_null (settle sqrtQ market tickers) in
  let ranked := evaluated sqrtQ market tickers in
  let movers := firstn 5 ranked in
  let strongest := firstn 3 ranked in
  Permutation ranked (filter qualifies candidates)
  /\ (forall e, In e ranked <-> In e candidates /\ 55 <= score_of e)
  /\ StronglySorted score_ge ranked
  /\ (forall s : num,
        filter (fun e => JS.eq (compositeScore e) s) ranked
        = filter (fun e => JS.eq (compositeScore e) s)
                 (filter qualifies candidates))
  /\ respond ranked
     = match ranked with
       | [] => NO_TRADE
       | _ :: _ => Json movers strongest (Some ranked) None
       end
  /\ (length movers <= 5)%nat /\ (length strongest <= 3)%nat
  /\ Forall (fun e => 55 <= score_of e) movers
  /\ Forall (fun e => 55 <= score_of e) strongest
  /\ strongest = firstn 3 movers.
Proof.
  intros candidates ranked movers strongest.
  set (cmp := fun a b : EvaluatedSymbol =>
                JS.sub (compositeScore b) (compositeScore a)).
  assert (Hfin : Forall finite_score candidates)
    by apply candidates_finite.
  assert (Hfin' : Forall finite_score (filter qualifies candidates)).
  { apply Forall_forall. intros e He. apply filter_In in He.
    rewrite Forall_forall in Hfin. now apply Hfin. }
  assert (Hperm : Permutation ranked (filter qualifies candidates))
    by apply sort_perm.
  assert (Hin : forall e, In e ranked <-> In e candidates /\ 55 <= score_of e).
  { intros e. rewrite Forall_forall in Hfin. split.
    - intros He. apply (Permutation_in _ Hperm), filter_In in He.
      destruct He as [H1 H2]. split; [assumption |].
      now apply (qualifies_spec e (Hfin e H1)).
    - intros [H1 H2].
      apply (Permutation_in _ (Permutation_sym Hperm)), filter_In.
      split; [assumption |]. now apply (qualifies_spec e (Hfin e H1)). }
  assert (Hall : Forall (fun e => 55 <= score_of e) ranked).
  { apply Forall_forall. intros e He. now apply Hin. }
  split; [assumption |]. split; [assumption |]. split.
  { apply (StronglySorted_weaken (key_le (fun e => - score_of e))).
    - unfold key_le, score_ge. intros a b H. lra.
    - apply (sort_sorted cmp (fun e => - score_of e) finite_score);
        [exact by_score_key | assumption]. }
  split.
  { intros s.
    apply (sort_filter cmp (fun e => - score_of e) finite_score);
      [exact by_score_key | apply same_score_class | assumption]. }
  split.
  { unfold respond. destruct ranked; reflexivity. }
  split; [apply firstn_le_length |]. split; [apply firstn_le_length |].
  split; [now apply Forall_firstn |]. split; [now apply Forall_firstn |].
  unfold strongest, movers. now rewrite firstn_firstn.
Qed.

(** ** Per-symbol failures *)

Lemma settle_app (sqrtQ : Q -> Q) (market : Market)
  (xs ys : list BaseTickerSnapshot) :
  settle sqrtQ market (xs ++ ys)
  = settle sqrtQ market xs ++ settle sqrtQ market ys.
Proof. apply map_app. Qed.

Lemma respond_json (ranked : list EvaluatedSymbol) :
  exists movers strongest all message,
    respond ranked = Json movers strongest all message.
Proof.
  unfold respond, NO_TRADE.
  destruct (length ranked =? 0)%nat; repeat eexists.
Qed.

(** C6: when the evaluation of a shortlisted symbol fails softly (a rejected
    request, or a 1h or 4h series of fewer than 30 bars), its slot settles to
    null and nothing is raised; no evaluated entry carries that symbol; and
    the kept evaluations, the ranked list and the answer are those of the
    pass over the shortlist without it. *)
Theorem per_symbol_failure (sqrtQ : Q -> Q) (market : Market)
  (before after : list BaseTickerSnapshot) (ticker : BaseTickerSnapshot) :
  symbol_fails market (symbol ticker) ->
  let full := before ++ ticker :: after in
  let rest := before ++ after in
  catch_null (evaluateSymbol sqrtQ market ticker) = None
  /\ settle sqrtQ market full
     = settle sqrtQ market before ++ None :: settle sqrtQ market after
  /\ non_null (settle sqrtQ market full) = non_null (settle sqrtQ market rest)
  /\ evaluated sqrtQ market full = evaluated sqrtQ market rest
  /\ respond (evaluated sqrtQ market full)
     = respond (evaluated sqrtQ market rest)
  /\ (forall e, In e (non_null (settle sqrtQ market full)) ->
                es_symbol e <> symbol ticker)
  /\ (exists movers strongest all message,
        respond (evaluated sqrtQ market full)
        = Json movers strongest all message).
Proof.
  intros Hfail full rest.
  pose proof (evaluateSymbol_fails sqrtQ market ticker Hfail) as Hnone.
  assert (Hsettle : settle sqrtQ market full
                    = settle sqrtQ market before
                      ++ None :: settle sqrtQ market after).
  { unfold full. rewrite settle_app. simpl. now rewrite Hnone. }
  assert (Hkept : non_null (settle sqrtQ market full)
                  = non_null (settle sqrtQ market rest)).
  { rewrite Hsettle. unfold rest.
    now rewrite settle_app, !non_null_app. }
  assert (Hranked : evaluated sqrtQ market full = evaluated sqrtQ market rest).
  { unfold evaluated. now rewrite Hkept. }
  split; [assumption |]. split; [assumption |]. split; [assumption |].
  split; [assumption |]. split; [now rewrite Hranked |]. split.
  - intros e He Esym. apply in_candidates in He.
    destruct He as (t & _ & E). apply evaluateSymbol_some in E.
    destruct E as (Es & _ & Hok). apply Hok.
    now rewrite <- Es, Esym.
  - apply respond_json.
Qed.

(** The theorem at work: DOWNUSDT, whose candle requests are rejected,
    between two other symbols. *)
Lemma per_symbol_failure_witness :
  symbol_fails demo_market "DOWNUSDT"
  /\ catch_null
       (evaluateSymbol sqrt_down demo_market (demo_ticker "DOWNUSDT")) = None
  /\ evaluated sqrt_down demo_market
       [demo_ticker "UPUSDT"; demo_ticker "DOWNUSDT"; demo_ticker "THINUSDT"]
     = evaluated sqrt_down demo_market
         [demo_ticker "UPUSDT"; demo_ticker "THINUSDT"].
Proof.
  assert (Hfail : symbol_fails demo_market
                    (symbol (demo_ticker "DOWNUSDT"))).
  { left. reflexivity. }
  split; [exact Hfail |].
  destruct (per_symbol_failure sqrt_down demo_market
              [demo_ticker "UPUSDT"] [demo_ticker "THINUSDT"]
              (demo_ticker "DOWNUSDT") Hfail)
    as (Hnone & _ & _ & Hranked & _).
  split; [exact Hnone | exact Hranked].
Defined.

(** The route answers with an error only when the symbol list or the ticker
    batch cannot be fetched. *)
Lemma GET_error (sqrtQ : Q -> Q) (log10 : num -> num) (market : Market) :
  (exists error status, GET sqrtQ log10 market = ErrorJson error status)
  <-> fetchPerpetualSymbols market = Rejected
      \/ fetchTickers market = Rejected.
Proof.
  unfold GET.
  destruct (fetchPerpetualSymbols market) as [symbols |],
           (fetchTickers market) as [tickers |].
  - split; [| intros [H | H]; discriminate].
    intros (error & status & H).
    match type of H with
    | (if ?c then _ else _) = _ => destruct c
    end.
    + discriminate.
    + destruct (respond_json (evaluated sqrtQ market
        (shortlist log10
           (filter (fun t => JS.gt (quoteVolume t) (Fin 2000000))
              (map normalizeTicker
                 (filter (fun t => existsb (String.eqb (t_symbol t)) symbols)
                         tickers))))))
        as (m & s & a & msg & E).
      rewrite E in H. discriminate.
  - split; [now right | intros _; repeat eexists].
  - split; [now left | intros _; repeat eexists].
  - split; [now left | intros _; repeat eexists].
Qed.

(** End to end: of three shortlisted symbols, the one with 29 candles and
    the one whose requests are rejected are left out without an error, and
    the one with 30 candles is evaluated and ranked. *)
Example scan_drops_thin_and_failing :
  map es_symbol
    (evaluated sqrt_down demo_market
       [demo_ticker "THINUSDT"; demo_ticker "UPUSDT"; demo_ticker "DOWNUSDT"])
  = ["UPUSDT"%string].
Proof. vm_compute. reflexivity. Qed.

(** * Further properties of the code *)

(** ** Exponential moving average and MACD *)

Lemma ema_loop_length (k prev : num) (rest : list num) :
  length (ema_loop k prev rest) = length rest.
Proof.
  revert prev. induction rest as [| c rest IH]; intros prev; simpl;
    [reflexivity | now rewrite IH].
Qed.

(** [ema] keeps the length of its input and starts from the first value, for
    every input and period. *)
Theorem ema_length_and_seed (values : list num) (period : nat) :
  length (ema values period) = length values
  /\ hd_error (ema values period) = hd_error values.
Proof.
  destruct values as [| v rest]; simpl; [now split |].
  now rewrite ema_loop_length.
Qed.

Lemma smoothing_constant (period : nat) :
  (1 <= period)%nat ->
  exists k : Q,
    JS.div (Fin 2) (JS.add (JS.of_nat period) JS.one) = Fin k
    /\ 0 < k <= 1.
Proof.
  intros Hp. pose proof (of_nat_pos period Hp) as Hpos.
  unfold JS.of_nat, JS.one. rewrite add_Fin.
  rewrite div_Fin by (apply Qeqb_false; lra).
  eexists. split; [reflexivity |]. split.
  - apply Qlt_shift_div_l; lra.
  - apply Qle_shift_div_r; lra.
Qed.

Lemma ema_step_in_range (lo hi k prev cur : Q) :
  0 < k <= 1 -> lo <= prev <= hi -> lo <= cur <= hi ->
  in_range lo hi (ema_step (Fin k) (Fin prev) (Fin cur)).
Proof.
  intros Hk Hprev Hcur. unfold ema_step, JS.one.
  autorewrite with fin. eexists. split; [reflexivity |].
  assert (0 <= (cur - lo) * k) by (apply Qmult_le_0_compat; lra).
  assert (0 <= (prev - lo) * (1 - k)) by (apply Qmult_le_0_compat; lra).
  assert (0 <= (hi - cur) * k) by (apply Qmult_le_0_compat; lra).
  assert (0 <= (hi - prev) * (1 - k)) by (apply Qmult_le_0_compat; lra).
  split; lra.
Qed.

Lemma ema_loop_in_range (lo hi k prev : Q) (qs : list Q) :
  0 < k <= 1 -> lo <= prev <= hi ->
  Forall (fun q => lo <= q <= hi) qs ->
  Forall (in_range lo hi) (ema_loop (Fin k) (Fin prev) (map Fin qs)).
Proof.
  intros Hk Hprev H. revert prev Hprev.
  induction H as [| c qs Hc Hqs IH]; intros prev Hprev; simpl;
    [constructor |].
  destruct (ema_step_in_range lo hi k prev c Hk Hprev Hc) as (e & E & He).
  rewrite E. constructor.
  - now exists e.
  - now apply IH.
Qed.

Lemma ema_length (values : list num) (period : nat) :
  length (ema values period) = length values.
Proof.
  destruct values as [| v rest]; simpl; [reflexivity |].
  now rewrite ema_loop_length.
Qed.

Lemma ema_in_range (period : nat) (lo hi : Q) (qs : list Q) :
  (1 <= period)%nat ->
  Forall (fun q => lo <= q <= hi) qs ->
  Forall (in_range lo hi) (ema (map Fin qs) period).
Proof.
  intros Hp H. destruct H as [| v qs Hv Hqs]; simpl; [constructor |].
  destruct (smoothing_constant period Hp) as (k & -> & Hk).
  constructor.
  - now exists v.
  - now apply ema_loop_in_range.
Qed.

(** For a period of at least 1 the smoothing constant lies in (0, 1], so
    the average of finite values has one finite value per input, each
    between the least and the greatest input: it never overshoots the
    data. *)
Theorem ema_bounded (period : nat) (lo hi : Q) (qs : list Q) :
  (1 <= period)%nat ->
  Forall (fun q => lo <= q <= hi) qs ->
  Forall (in_range lo hi) (ema (map Fin qs) period)
  /\ length (ema (map Fin qs) period) = length qs.
Proof.
  intros Hp H. split.
  - now apply ema_in_range.
  - now rewrite ema_length, length_map.
Qed.

Lemma ema_bounded_witness :
  (1 <= 21)%nat
  /\ Forall (fun q => 100 <= q <= 104) [100; 104; 101; 103]
  /\ Forall (in_range 100 104) (ema (map Fin [100; 104; 101; 103]) 21)
  /\ length (ema (map Fin [100; 104; 101; 103]) 21) = 4%nat.
Proof.
  assert (Hp : (1 <= 21)%nat) by lia.
  assert (Hq : Forall (fun q => 100 <= q <= 104) [100; 104; 101; 103]).
  { repeat constructor; simpl; discriminate. }
  split; [exact Hp |]. split; [exact Hq |].
  exact (ema_bounded 21 100 104 [100; 104; 101; 103] Hp Hq).
Defined.

Lemma in_range_at_index (lo hi : Q) (xs : list num) (i : nat) :
  Forall (in_range lo hi) xs -> (i < length xs)%nat ->
  in_range lo hi (JS.at_index xs i).
Proof.
  intros H Hi. rewrite Forall_forall in H. apply H.
  unfold JS.at_index. now apply nth_In.
Qed.

Lemma in_range_last (lo hi : Q) (xs : list num) :
  Forall (in_range lo hi) xs -> xs <> [] ->
  in_range lo hi (JS.last_num xs).
Proof.
  intros H Hne. rewrite Forall_forall in H. apply H.
  unfold JS.last_num.
  destruct (exists_last Hne) as (l & a & ->).
  rewrite last_last. apply in_or_app. right. now left.
Qed.

Lemma in_range_finite (lo hi : Q) (xs : list num) :
  Forall (in_range lo hi) xs ->
  exists qs : list Q, xs = map Fin qs /\ Forall (fun q => lo <= q <= hi) qs.
Proof.
  induction 1 as [| x xs (q & -> & Hq) Hxs (qs & -> & Hqs)].
  - now exists [].
  - exists (q :: qs). split; [reflexivity | now constructor].
Qed.

(** With fewer than [slowPeriod + signalPeriod] values [macd] answers all
    zeros; and on a flat series of finite values that is long enough, the
    MACD line, the signal line and the histogram are all 0. *)
Theorem macd_flat (fastPeriod slowPeriod signalPeriod : nat) :
  (forall values : list num,
      (length values < slowPeriod + signalPeriod)%nat ->
      macd values fastPeriod slowPeriod signalPeriod
      = mkMacd (Fin 0) (Fin 0) (Fin 0))
  /\ (forall (c : Q) (qs : list Q),
        (1 <= fastPeriod)%nat -> (1 <= slowPeriod)%nat ->
        (1 <= signalPeriod)%nat ->
        (slowPeriod + signalPeriod <= length qs)%nat ->
        Forall (fun q => c <= q <= c) qs ->
        exists m s h : Q,
          macd (map Fin qs) fastPeriod slowPeriod signalPeriod
          = mkMacd (Fin m) (Fin s) (Fin h)
          /\ m == 0 /\ s == 0 /\ h == 0).
Proof.
  split.
  - intros values H. unfold macd.
    now rewrite (proj2 (Nat.ltb_lt _ _) H).
  - intros c qs Hf Hs Hg Hlen Hflat. unfold macd.
    rewrite length_map, (proj2 (Nat.ltb_ge _ _) Hlen).
    pose proof (ema_in_range fastPeriod c c qs Hf Hflat) as Hfast.
    pose proof (ema_in_range slowPeriod c c qs Hs Hflat) as Hslow.
    set (fastEma := ema (map Fin qs) fastPeriod) in *.
    set (slowEma := ema (map Fin qs) slowPeriod) in *.
    assert (Lf : length fastEma = length qs).
    { unfold fastEma.
      now rewrite ema_length, length_map. }
    assert (Ls : length slowEma = length qs).
    { unfold slowEma.
      now rewrite ema_length, length_map. }
    set (macdSeries :=
           map (fun idx => JS.sub (JS.at_index fastEma idx)
                                  (JS.at_index slowEma idx))
               (seq 0 (length qs))).
    assert (Hseries : Forall (in_range 0 0) macdSeries).
    { apply Forall_forall. intros x Hx. apply in_map_iff in Hx.
      destruct Hx as (idx & <- & Hidx). apply in_seq in Hidx.
      destruct (in_range_at_index c c fastEma idx Hfast) as (a & -> & Ha);
        [lia |].
      destruct (in_range_at_index c c slowEma idx Hslow) as (b & -> & Hb);
        [lia |].
      rewrite sub_Fin. eexists. split; [reflexivity | lra]. }
    assert (Lm : length macdSeries = length qs).
    { unfold macdSeries. now rewrite length_map, length_seq. }
    assert (Hm : in_range 0 0 (JS.last_num macdSeries)).
    { apply in_range_last; [assumption |].
      intros E. rewrite E in Lm. simpl in Lm. lia. }
    set (tail := JS.slice_from_pred slowPeriod macdSeries).
    assert (Htail : Forall (in_range 0 0) tail /\ tail <> []).
    { unfold tail. destruct slowPeriod as [| n]; [lia |]. simpl. split.
      - rewrite <- (firstn_skipn n macdSeries) in Hseries.
        now apply Forall_app in Hseries.
      - intros E. pose proof (length_skipn n macdSeries) as L.
        rewrite E in L. simpl in L. lia. }
    destruct Htail as [Htail Hne].
    destruct (in_range_finite 0 0 tail Htail) as (ts & Ets & Hts).
    assert (Hsig : in_range 0 0 (JS.last_num (ema tail signalPeriod))).
    { apply in_range_last.
      - rewrite Ets. now apply ema_in_range.
      - intros E.
        pose proof (ema_length tail signalPeriod) as L.
        rewrite E in L. destruct tail; [contradiction | discriminate]. }
    destruct Hm as (m & -> & Hm). destruct Hsig as (g & -> & Hg0).
    exists m, g, (m - g). rewrite sub_Fin.
    repeat split; try reflexivity; lra.
Qed.

(** ** Relative strength index of a series that never falls *)

Lemma rsi_sum_loss_free (qs : list Q) (acc : num * num) (i : nat) :
  non_decreasing qs -> loss_free acc -> (1 <= i < length qs)%nat ->
  loss_free (rsi_sum (map Fin qs) acc i).
Proof.
  intros Hup (g & l & -> & Hl) Hi. unfold rsi_sum, JS.zero.
  rewrite delta_at_Fin by lia. rewrite ge_Fin.
  pose proof (Hup i Hi) as Hd.
  rewrite (proj2 (le_Fin _ _)) by lra.
  rewrite add_Fin. now eexists; eexists.
Qed.

Lemma rsi_smooth_loss_free (qs : list Q) (period : nat) (acc : num * num)
  (i : nat) :
  (1 <= period)%nat ->
  non_decreasing qs -> loss_free acc -> (1 <= i < length qs)%nat ->
  loss_free (rsi_smooth (map Fin qs) period acc i).
Proof.
  intros Hp Hup (g & l & -> & Hl) Hi. unfold rsi_smooth, JS.zero, JS.one.
  rewrite delta_at_Fin by lia. rewrite ge_Fin.
  pose proof (Hup i Hi) as Hd.
  rewrite (proj2 (le_Fin _ _)) by lra.
  pose proof (of_nat_pos period Hp) as Hpos.
  pose proof (of_nat_nonzero period Hp) as Hnz.
  unfold JS.of_nat. autorewrite with fin. rewrite !div_Fin by assumption.
  eexists; eexists. split; [reflexivity |].
  rewrite Hl. field. lra.
Qed.

(** On finite values that never fall, with more values than the period, no
    loss is ever recorded and [rsi] answers its ceiling 80; a flat series in
    particular reads 80, not the neutral 50. *)
Theorem rsi_never_falling (period : nat) (qs : list Q) :
  (1 <= period)%nat -> (period < length qs)%nat -> non_decreasing qs ->
  rsi (map Fin qs) period = Fin 80.
Proof.
  intros Hp Hlen Hup.
  assert (Havg : loss_free (rsi_averages (map Fin qs) period)).
  { unfold rsi_averages.
    assert (S1 : loss_free
                   (fold_left (rsi_sum (map Fin qs)) (seq 1 period)
                              (JS.zero, JS.zero))).
    { apply (fold_left_invariant loss_free
               (fun i => (1 <= i < length qs)%nat)).
      - intros a b Ha Hb. now apply rsi_sum_loss_free.
      - apply Forall_forall. intros i Hi. apply in_seq in Hi. lia.
      - exists 0, 0. split; reflexivity. }
    destruct S1 as (g & l & -> & Hl).
    pose proof (of_nat_pos period Hp) as Hpos.
    pose proof (of_nat_nonzero period Hp) as Hnz.
    unfold JS.of_nat. rewrite !div_Fin by assumption.
    apply (fold_left_invariant loss_free
             (fun i => (1 <= i < length qs)%nat)).
    - intros a b Ha Hb. now apply rsi_smooth_loss_free.
    - apply Forall_forall. intros i Hi. apply in_seq in Hi.
      rewrite length_map in Hi. lia.
    - eexists; eexists. split; [reflexivity |].
      rewrite Hl. field. lra. }
  destruct Havg as (g & l & E & Hl). unfold rsi.
  rewrite length_map, (proj2 (Nat.leb_gt _ _) Hlen), E.
  unfold JS.zero. rewrite eq_Fin.
  now rewrite (proj2 (Qeqb_true l 0) Hl).
Qed.

Lemma rsi_never_falling_witness :
  (1 <= 2)%nat /\ (2 < length [7; 7; 7; 9])%nat
  /\ non_decreasing [7; 7; 7; 9]
  /\ rsi (map Fin [7; 7; 7; 9]) 2 = Fin 80.
Proof.
  assert (Hp : (1 <= 2)%nat) by lia.
  assert (Hlen : (2 < length [7; 7; 7; 9])%nat) by (simpl; lia).
  assert (Hup : non_decreasing [7; 7; 7; 9]).
  { intros i Hi. simpl in Hi.
    destruct i as [| [| [| [| i]]]]; simpl; try lia; discriminate. }
  split; [exact Hp |]. split; [exact Hlen |]. split; [exact Hup |].
  exact (rsi_never_falling 2 [7; 7; 7; 9] Hp Hlen Hup).
Defined.

(** ** Volume-spike ratio *)

Lemma slice_last_map {A B : Type} (f : A -> B) (n : nat) (xs : list A) :
  JS.slice_last n (map f xs) = map f (JS.slice_last n xs).
Proof.
  unfold JS.slice_last. destruct n; [reflexivity |].
  now rewrite length_map, skipn_map.
Qed.

Lemma last_num_Fin (qs : list Q) :
  qs <> [] -> JS.last_num (map Fin qs) = Fin (last qs 0).
Proof.
  intros H. destruct (exists_last H) as (l & a & ->).
  unfold JS.last_num. rewrite map_app. simpl. now rewrite !last_last.
Qed.

Lemma removelast_map {A B : Type} (f : A -> B) (xs : list A) :
  removelast (map f xs) = map f (removelast xs).
Proof.
  induction xs as [| a [| b xs] IH]; try reflexivity.
  change (f a :: removelast (map f (b :: xs))
          = f a :: map f (removelast (b :: xs))).
  now rewrite IH.
Qed.

Lemma Qsum_nonneg (qs : list Q) (a : Q) :
  0 <= a -> Forall (fun q => 0 <= q) qs -> 0 <= fold_left Qplus qs a.
Proof.
  intros Ha H. revert a Ha.
  induction H as [| q qs Hq Hqs IH]; intros a Ha; simpl; [assumption |].
  apply IH. lra.
Qed.

Lemma Forall_slice_last {A : Type} (P : A -> Prop) (n : nat) (xs : list A) :
  Forall P xs -> Forall P (JS.slice_last n xs).
Proof.
  intros H. unfold JS.slice_last. destruct n; [assumption |].
  rewrite <- (firstn_skipn (length xs - S n) xs) in H.
  now apply Forall_app in H.
Qed.

Lemma Forall_removelast {A : Type} (P : A -> Prop) (xs : list A) :
  Forall P xs -> Forall P (removelast xs).
Proof.
  intros H. destruct xs as [| a xs]; [constructor |].
  destruct (exists_last (l := a :: xs)) as (l & b & E); [discriminate |].
  rewrite E in *. rewrite removelast_last. now apply Forall_app in H.
Qed.

Lemma Forall_last {A : Type} (P : A -> Prop) (xs : list A) (d : A) :
  Forall P xs -> xs <> [] -> P (last xs d).
Proof.
  intros H Hne. destruct (exists_last Hne) as (l & b & ->).
  rewrite last_last. apply Forall_app in H. destruct H as [_ H].
  now inversion H.
Qed.

Lemma slice_last_length {A : Type} (n : nat) (xs : list A) :
  (length (JS.slice_last n xs) <= length xs)%nat.
Proof.
  unfold JS.slice_last. destruct n; [lia |]. rewrite length_skipn. lia.
Qed.

(** On finite volumes the ratio is always finite: the zero-mean guard keeps
    the division defined.  It is 1 with fewer than 2 samples, and
    non-negative when no volume is negative. *)
Theorem volumeSpikeRatio_finite (lookback : nat) (qs : list Q) :
  exists r : Q,
    volumeSpikeRatio (map Fin qs) lookback = Fin r
    /\ ((length qs < 2)%nat -> r == 1)
    /\ (Forall (fun q => 0 <= q) qs -> 0 <= r).
Proof.
  unfold volumeSpikeRatio, JS.one, JS.zero. rewrite length_map.
  destruct (length qs =? 0)%nat eqn:E0.
  { exists 1. repeat split; try reflexivity; intros; lra. }
  rewrite slice_last_map, length_map.
  pose proof (slice_last_length (lookback + 1) qs) as Hle.
  set (sl := JS.slice_last (lookback + 1) qs) in *.
  destruct (length sl <? 2)%nat eqn:E2.
  { exists 1. repeat split; try reflexivity; intros; lra. }
  apply Nat.ltb_ge in E2.
  assert (Hne : sl <> []) by (intros E; rewrite E in E2; simpl in E2; lia).
  rewrite last_num_Fin by assumption.
  rewrite removelast_map, length_map. unfold sum, JS.zero.
  rewrite sum_Fin.
  set (total := fold_left Qplus (removelast sl) 0).
  assert (Hdiv : exists d : Q,
             (if (length (removelast sl) =? 0)%nat then Fin 1
              else JS.of_nat (length (removelast sl))) = Fin d /\ 1 <= d).
  { destruct (length (removelast sl) =? 0)%nat eqn:Er.
    - exists 1. split; [reflexivity | lra].
    - apply Nat.eqb_neq in Er. eexists. split; [reflexivity |].
      apply of_nat_pos. lia. }
  destruct Hdiv as (d & -> & Hd).
  rewrite div_Fin by (apply Qeqb_false; lra). rewrite eq_Fin.
  destruct (Qeq_bool (total / d) 0) eqn:Ea.
  { exists 1. repeat split; try reflexivity; intros; lra. }
  order_facts. rewrite div_Fin by now apply Qeqb_false.
  eexists. split; [reflexivity |]. split.
  - intros H. lia.
  - intros Hpos.
    assert (Hsl : Forall (fun q => 0 <= q) sl)
      by now apply Forall_slice_last.
    assert (Htot : 0 <= total).
    { apply Qsum_nonneg; [lra | now apply Forall_removelast]. }
    assert (Hlatest : 0 <= last sl 0) by now apply Forall_last.
    assert (Havg : 0 <= total / d) by (apply Qdiv_nonneg; lra).
    apply Qdiv_nonneg; [assumption | lra].
Qed.

(** Only the last [lookback + 1] samples count: whatever comes before a full
    window does not change the ratio, for any values. *)
Theorem volumeSpikeRatio_window (lookback : nat)
  (older window : list num) :
  length window = (lookback + 1)%nat ->
  volumeSpikeRatio (older ++ window) lookback
  = volumeSpikeRatio window lookback.
Proof.
  intros Hw. unfold volumeSpikeRatio.
  assert (E1 : JS.slice_last (lookback + 1) (older ++ window) = window).
  { unfold JS.slice_last. rewrite Nat.add_1_r in *.
    rewrite length_app, Hw.
    replace (length older + S lookback - S lookback)%nat
      with (length older) by lia.
    now rewrite skipn_app, skipn_all, Nat.sub_diag. }
  assert (E2 : JS.slice_last (lookback + 1) window = window).
  { unfold JS.slice_last. rewrite Nat.add_1_r in *.
    now rewrite Hw, Nat.sub_diag. }
  rewrite E1, E2, length_app, Hw.
  replace (length older + (lookback + 1) =? 0)%nat with false
    by (symmetry; apply Nat.eqb_neq; lia).
  replace (lookback + 1 =? 0)%nat with false
    by (symmetry; apply Nat.eqb_neq; lia).
  reflexivity.
Qed.

Lemma volumeSpikeRatio_window_witness :
  length [Fin 10; Fin 10; Fin 30] = (2 + 1)%nat
  /\ volumeSpikeRatio ([Fin 500; NaN] ++ [Fin 10; Fin 10; Fin 30]) 2
     = volumeSpikeRatio [Fin 10; Fin 10; Fin 30] 2.
Proof.
  assert (H : length [Fin 10; Fin 10; Fin 30] = (2 + 1)%nat) by reflexivity.
  split; [exact H |].
  exact (volumeSpikeRatio_window 2 [Fin 500; NaN] [Fin 10; Fin 10; Fin 30] H).
Defined.

(** ** Standard deviation and volatility at their edges *)

Lemma fits_add (total a x : num) :
  fits total (JS.add a x) -> fits total a /\ fits total x.
Proof.
  destruct total, a, x; unfold JS.add; simpl; tauto.
Qed.

Lemma fits_refl (a : num) : fits a a.
Proof. destruct a; exact I. Qed.

Lemma sum_fits (xs : list num) (a : num) :
  fits (fold_left JS.add xs a) a /\ Forall (fits (fold_left JS.add xs a)) xs.
Proof.
  revert a. induction xs as [| x xs IH]; intros a; simpl.
  - split; [apply fits_refl | constructor].
  - destruct (IH (JS.add a x)) as [H1 H2].
    apply fits_add in H1. destruct H1 as [Ha Hx].
    split; [assumption | now constructor].
Qed.

Lemma mean_fits (total x : num) (n : Q) :
  1 <= n -> fits total x -> fits (JS.div total (Fin n)) x.
Proof.
  intros Hn. unfold JS.div, JS.signed_inf.
  destruct total as [t | | |]; try exact (fun H => H).
  - rewrite (proj2 (Qeqb_false n 0)) by lra. exact (fun H => H).
  - rewrite (proj2 (Qle_bool_iff 0 n)) by lra. exact (fun H => H).
  - rewrite (proj2 (Qltb_false n 0)) by lra. exact (fun H => H).
Qed.

Lemma deviation_NaN (mean x : num) :
  fits mean x -> not_finite x -> JS.sq (JS.sub x mean) = NaN.
Proof.
  unfold not_finite. destruct mean, x; simpl; try contradiction;
    try discriminate; reflexivity.
Qed.

Lemma squares_NaN_sticky (mean : num) (xs : list num) :
  fold_left (fun acc val => JS.add acc (JS.sq (JS.sub val mean))) xs NaN
  = NaN.
Proof.
  induction xs as [| x xs IH]; simpl; [reflexivity |]. exact IH.
Qed.

Lemma squares_poisoned (mean : num) (xs : list num) (a : num) :
  Forall (fits mean) xs -> Exists not_finite xs ->
  fold_left (fun acc val => JS.add acc (JS.sq (JS.sub val mean))) xs a = NaN.
Proof.
  intros Hfit Hex. revert a.
  induction Hex as [x xs Hx | x xs Hex IH]; intros a; simpl.
  - inversion Hfit as [| ? ? Fx _]; subst.
    rewrite (deviation_NaN mean x Fx Hx).
    replace (JS.add a NaN) with NaN by (destruct a; reflexivity).
    apply squares_NaN_sticky.
  - inversion Hfit; subst. now apply IH.
Qed.

Lemma standardDeviation_poisoned (sqrtQ : Q -> Q) (xs : list num) :
  Exists not_finite xs -> standardDeviation sqrtQ xs = NaN.
Proof.
  intros Hex. unfold standardDeviation, sum.
  assert (Hn : 1 <= inject_Z (Z.of_nat (length xs))).
  { apply of_nat_pos. destruct Hex; simpl; lia. }
  destruct (sum_fits xs JS.zero) as [_ Hfit].
  unfold JS.of_nat.
  rewrite squares_poisoned; [reflexivity | | assumption].
  eapply Forall_impl; [| exact Hfit].
  intros x. now apply mean_fits.
Qed.

Lemma simple_returns_cons (a b : num) (rest : list num) :
  simple_returns (a :: b :: rest)
  = JS.div (JS.sub b a) a :: simple_returns (b :: rest).
Proof. reflexivity. Qed.

Lemma zero_close_return (pre post : list Q) (z b : Q) :
  z == 0 ->
  Exists not_finite (simple_returns (map Fin (pre ++ z :: b :: post))).
Proof.
  intros Hz. induction pre as [| a pre IH].
  - simpl app. simpl map. rewrite simple_returns_cons.
    apply Exists_cons_hd. unfold not_finite.
    rewrite sub_Fin. unfold JS.div, JS.signed_inf.
    rewrite (proj2 (Qeqb_true z 0) Hz).
    destruct (Qeq_bool (b - z) 0); [reflexivity |].
    destruct (JS.Qltb 0 (b - z)); reflexivity.
  - destruct pre as [| a' pre]; simpl app in *; simpl map in *;
      rewrite simple_returns_cons; now apply Exists_cons_tl.
Qed.

(** The divisions are not guarded: a list with an infinity or a [NaN] has
    the standard deviation [NaN], and a close of 0 anywhere before the last
    one makes a return infinite or [NaN] and the volatility [NaN]. *)
Theorem volatilityPercent_zero_close (sqrtQ : Q -> Q) :
  (forall xs : list num,
      Exists not_finite xs -> standardDeviation sqrtQ xs = NaN)
  /\ (forall (pre post : list Q) (z b : Q),
        z == 0 ->
        volatilityPercent sqrtQ (map Fin (pre ++ z :: b :: post)) = NaN).
Proof.
  split.
  - intros xs H. now apply standardDeviation_poisoned.
  - intros pre post z b Hz. unfold volatilityPercent.
    rewrite length_map, length_app. simpl length.
    replace (length pre + S (S (length post)) <? 2)%nat with false
      by (symmetry; apply Nat.ltb_ge; lia).
    rewrite (standardDeviation_poisoned sqrtQ _
               (zero_close_return pre post z b Hz)).
    reflexivity.
Qed.

Example volatilityPercent_zero_close_example :
  volatilityPercent sqrt_down (map Fin [100; 0; 100]) = NaN
  /\ standardDeviation sqrt_down [Fin 1; JS.PInf] = NaN.
Proof. split; reflexivity. Qed.

Lemma Qsum_constant (c : Q) (qs : list Q) (a : Q) :
  Forall (fun q => q == c) qs ->
  fold_left Qplus qs a == a + inject_Z (Z.of_nat (length qs)) * c.
Proof.
  intros H. revert a.
  induction H as [| q qs Hq Hqs IH]; intros a.
  - simpl. ring.
  - cbn [fold_left length]. rewrite IH, Hq, Nat2Z.inj_succ.
    unfold Z.succ. rewrite inject_Z_plus. ring.
Qed.

Lemma squares_zero (m : Q) (qs : list Q) (a : Q) :
  a == 0 -> Forall (fun q => q == m) qs ->
  exists v : Q,
    fold_left (fun acc val => JS.add acc (JS.sq (JS.sub val (Fin m))))
              (map Fin qs) (Fin a) = Fin v
    /\ v == 0.
Proof.
  intros Ha H. revert a Ha.
  induction H as [| q qs Hq Hqs IH]; intros a Ha; simpl.
  - now exists a.
  - unfold JS.sq. rewrite sub_Fin, mul_Fin, add_Fin. apply IH.
    rewrite Ha, Hq. ring.
Qed.

Lemma flat_returns (c : Q) (qs : list Q) :
  ~ c == 0 -> Forall (fun q => q == c) qs ->
  exists rs : list Q,
    simple_returns (map Fin qs) = map Fin rs
    /\ Forall (fun r => r == 0) rs.
Proof.
  intros Hc H. induction H as [| a qs Ha Hqs (rs & E & Hrs)].
  - now exists [].
  - destruct qs as [| b rest].
    + now exists [].
    + inversion Hqs as [| ? ? Hb _]; subst.
      exists ((b - a) / a :: rs). simpl map in *.
      rewrite simple_returns_cons, E, sub_Fin.
      rewrite div_Fin by (apply Qeqb_false; now rewrite Ha).
      split; [reflexivity |]. constructor; [| assumption].
      rewrite Hb, Ha. field. assumption.
Qed.

Section FlatSeries.

Variable sqrtQ : Q -> Q.
Hypothesis sqrtQ_zero : forall x : Q, x == 0 -> sqrtQ x == 0.

Lemma standardDeviation_constant (c : Q) (qs : list Q) :
  qs <> [] -> Forall (fun q => q == c) qs ->
  exists d : Q, standardDeviation sqrtQ (map Fin qs) = Fin d /\ d == 0.
Proof.
  intros Hne Hflat. unfold standardDeviation, sum, JS.zero, JS.of_nat.
  rewrite length_map, sum_Fin.
  pose proof (of_nat_length_nonzero qs Hne) as Hnz.
  assert (Hn : 1 <= inject_Z (Z.of_nat (length qs))).
  { apply of_nat_pos. destruct qs; [contradiction | simpl; lia]. }
  rewrite div_Fin by assumption.
  set (n := inject_Z (Z.of_nat (length qs))) in *.
  assert (Hmean : fold_left Qplus qs 0 / n == c).
  { rewrite (Qsum_constant c qs 0 Hflat). fold n. field. lra. }
  destruct (squares_zero (fold_left Qplus qs 0 / n) qs 0)
    as (v & -> & Hv); [reflexivity | |].
  { eapply Forall_impl; [| exact Hflat].
    intros q Hq. simpl in Hq. now rewrite Hq, Hmean. }
  rewrite div_Fin by assumption.
  assert (Hvar : v / n == 0) by (rewrite Hv; field; lra).
  unfold JS.sqrt. rewrite (proj2 (Qltb_false (v / n) 0)) by lra.
  eexists. split; [reflexivity | now apply sqrtQ_zero].
Qed.

(** A series that does not move has no dispersion: the standard deviation of
    a constant non-empty list is 0, and so is the volatility of at least two
    equal non-zero closes. *)
Theorem flat_series_no_volatility (c : Q) (qs : list Q) :
  Forall (fun q => q == c) qs ->
  (qs <> [] ->
   exists d : Q, standardDeviation sqrtQ (map Fin qs) = Fin d /\ d == 0)
  /\ ((2 <= length qs)%nat -> ~ c == 0 ->
      exists v : Q, volatilityPercent sqrtQ (map Fin qs) = Fin v /\ v == 0).
Proof.
  intros Hflat. split.
  - intros Hne. now apply (standardDeviation_constant c).
  - intros Hlen Hc. unfold volatilityPercent.
    rewrite length_map, (proj2 (Nat.ltb_ge _ _) Hlen).
    destruct (flat_returns c qs Hc Hflat) as (rs & E & Hrs).
    assert (Hne : rs <> []).
    { intros ->. pose proof (simple_returns_length (map Fin qs)) as L.
      rewrite E, !length_map in L. simpl in L. lia. }
    rewrite E.
    destruct (standardDeviation_constant 0 rs Hne Hrs) as (d & -> & Hd).
    rewrite length_map. unfold JS.of_nat, JS.sqrt.
    assert (Hlen' : 0 <= inject_Z (Z.of_nat (length rs))).
    { change 0 with (inject_Z 0). rewrite <- Zle_Qle. lia. }
    rewrite (proj2 (Qltb_false _ 0) Hlen'), !mul_Fin.
    eexists. split; [reflexivity |]. rewrite Hd. ring.
Qed.

End FlatSeries.

Lemma sqrt_down_zero (x : Q) : x == 0 -> sqrt_down x == 0.
Proof.
  intros H. rewrite (sqrt_down_same x 0 H). reflexivity.
Qed.

Lemma flat_series_no_volatility_witness :
  (forall x : Q, x == 0 -> sqrt_down x == 0)
  /\ Forall (fun q => q == 250) [250; 250; 250]
  /\ (exists d : Q,
        standardDeviation sqrt_down (map Fin [250; 250; 250]) = Fin d
        /\ d == 0)
  /\ (exists v : Q,
        volatilityPercent sqrt_down (map Fin [250; 250; 250]) = Fin v
        /\ v == 0).
Proof.
  assert (Hflat : Forall (fun q => q == 250) [250; 250; 250])
    by (repeat constructor).
  split; [exact sqrt_down_zero |]. split; [exact Hflat |].
  destruct (flat_series_no_volatility sqrt_down sqrt_down_zero 250
              [250; 250; 250] Hflat) as [Hdev Hvol].
  split.
  - apply Hdev. discriminate.
  - apply Hvol; [simpl; lia | discriminate].
Defined.

(** ** Breakout detection *)

Lemma max_list_from (a : Q) (hs : list Q) :
  exists H : Q,
    fold_left JS.max (map Fin hs) (Fin a) = Fin H
    /\ (H = a \/ In H hs) /\ a <= H /\ Forall (fun h => h <= H) hs.
Proof.
  revert a. induction hs as [| h hs IH]; intros a; simpl.
  - exists a. repeat split; [now left | lra | constructor].
  - rewrite max_Fin. destruct (JS.Qltb a h) eqn:E; order_facts.
    + destruct (IH h) as (H & -> & Hin & Hle & Hall).
      exists H. split; [reflexivity |]. split; [| split].
      * right. destruct Hin as [-> | Hin]; [now left | now right].
      * lra.
      * now constructor.
    + destruct (IH a) as (H & -> & Hin & Hle & Hall).
      exists H. split; [reflexivity |]. split; [| split].
      * destruct Hin as [-> | Hin]; [now left | right; now right].
      * assumption.
      * constructor; [lra | assumption].
Qed.

Lemma min_list_from (a : Q) (ls : list Q) :
  exists L : Q,
    fold_left JS.min (map Fin ls) (Fin a) = Fin L
    /\ (L = a \/ In L ls) /\ L <= a /\ Forall (fun l => L <= l) ls.
Proof.
  revert a. induction ls as [| l ls IH]; intros a; simpl.
  - exists a. repeat split; [now left | lra | constructor].
  - rewrite min_Fin. destruct (JS.Qltb l a) eqn:E; order_facts.
    + destruct (IH l) as (L & -> & Hin & Hle & Hall).
      exists L. split; [reflexivity |]. split; [| split].
      * right. destruct Hin as [-> | Hin]; [now left | now right].
      * lra.
      * now constructor.
    + destruct (IH a) as (L & -> & Hin & Hle & Hall).
      exists L. split; [reflexivity |]. split; [| split].
      * destruct Hin as [-> | Hin]; [now left | right; now right].
      * assumption.
      * constructor; [lra | assumption].
Qed.

Lemma max_list_Fin (hs : list Q) :
  hs <> [] ->
  exists H : Q,
    JS.max_list (map Fin hs) = Fin H
    /\ In H hs /\ Forall (fun h => h <= H) hs.
Proof.
  destruct hs as [| h hs]; [contradiction |]. intros _.
  unfold JS.max_list. simpl.
  change (JS.max JS.NInf (Fin h)) with (Fin h).
  destruct (max_list_from h hs) as (H & -> & Hin & Hle & Hall).
  exists H. split; [reflexivity |]. split.
  - destruct Hin as [-> | Hin]; [now left | now right].
  - now constructor.
Qed.

Lemma min_list_Fin (ls : list Q) :
  ls <> [] ->
  exists L : Q,
    JS.min_list (map Fin ls) = Fin L
    /\ In L ls /\ Forall (fun l => L <= l) ls.
Proof.
  destruct ls as [| l ls]; [contradiction |]. intros _.
  unfold JS.min_list. simpl.
  change (JS.min JS.PInf (Fin l)) with (Fin l).
  destruct (min_list_from l ls) as (L & -> & Hin & Hle & Hall).
  exists L. split; [reflexivity |]. split.
  - destruct Hin as [-> | Hin]; [now left | now right].
  - now constructor.
Qed.

Lemma slice_last_nonempty {A : Type} (n : nat) (xs : list A) :
  (1 <= n)%nat -> xs <> [] -> JS.slice_last n xs <> [].
Proof.
  intros Hn Hne E. unfold JS.slice_last in E.
  destruct n; [lia |].
  pose proof (length_skipn (length xs - S n) xs) as L.
  rewrite E in L. change (length (@nil A)) with 0%nat in L.
  assert (length xs <> 0)%nat by (destruct xs; [contradiction | discriminate]).
  lia.
Qed.

Lemma Qlt_div_iff (a b c : Q) : 0 < c -> (a < b / c <-> a * c < b).
Proof.
  intros Hc. assert (E : b / c * c == b) by (field; lra). split.
  - intros H. rewrite <- E. apply Qmult_lt_compat_r; assumption.
  - intros H. now apply Qlt_shift_div_l.
Qed.

Lemma Qdiv_lt_iff (a b c : Q) : 0 < c -> (b / c < a <-> b < a * c).
Proof.
  intros Hc. assert (E : b / c * c == b) by (field; lra). split.
  - intros H. rewrite <- E. apply Qmult_lt_compat_r; assumption.
  - intros H. now apply Qlt_shift_div_r.
Qed.

(** On non-empty series of positive finite highs and lows the flags compare
    the price with the extremes of the last 20 bars: breakout exactly when
    the price exceeds 99.8 % of the highest high, breakdown exactly when it
    is below 100.2 % of the lowest low. *)
Theorem detectBreakout_flags (hs ls : list Q) (p : Q) :
  hs <> [] -> ls <> [] ->
  Forall (fun h => 0 < h) hs -> Forall (fun l => 0 < l) ls ->
  exists H L : Q,
    In H (JS.slice_last 20 hs)
    /\ Forall (fun h => h <= H) (JS.slice_last 20 hs)
    /\ In L (JS.slice_last 20 ls)
    /\ Forall (fun l => L <= l) (JS.slice_last 20 ls)
    /\ (isBreakout (detectBreakout (map Fin hs) (map Fin ls) (Fin p)) = true
        <-> 0.998 * H < p)
    /\ (isBreakdown (detectBreakout (map Fin hs) (map Fin ls) (Fin p)) = true
        <-> p < 1.002 * L).
Proof.
  intros Hh Hl Hhpos Hlpos. unfold detectBreakout.
  rewrite !slice_last_map, !length_map.
  assert (Nh : JS.slice_last 20 hs <> [])
    by (apply slice_last_nonempty; [lia | assumption]).
  assert (Nl : JS.slice_last 20 ls <> [])
    by (apply slice_last_nonempty; [lia | assumption]).
  replace (length (JS.slice_last 20 hs) =? 0)%nat with false
    by (symmetry; apply Nat.eqb_neq; destruct (JS.slice_last 20 hs);
        [contradiction | discriminate]).
  replace (length (JS.slice_last 20 ls) =? 0)%nat with false
    by (symmetry; apply Nat.eqb_neq; destruct (JS.slice_last 20 ls);
        [contradiction | discriminate]).
  destruct (max_list_Fin _ Nh) as (H & -> & HinH & HallH).
  destruct (min_list_Fin _ Nl) as (L & -> & HinL & HallL).
  assert (HposH : 0 < H).
  { pose proof (Forall_slice_last _ 20 hs Hhpos) as F.
    rewrite Forall_forall in F. now apply F. }
  assert (HposL : 0 < L).
  { pose proof (Forall_slice_last _ 20 ls Hlpos) as F.
    rewrite Forall_forall in F. now apply F. }
  exists H, L. cbn [isBreakout isBreakdown].
  rewrite !sub_Fin, !div_Fin by (apply Qeqb_false; lra).
  rewrite gt_Fin, lt_Fin, !Qltb_true.
  repeat (split; [assumption |]). split.
  - rewrite (Qlt_div_iff _ _ H HposH). split; intros; lra.
  - rewrite (Qdiv_lt_iff _ _ L HposL). split; intros; lra.
Qed.

Lemma detectBreakout_flags_witness :
  [101; 105; 103] <> [] /\ [99; 98; 100] <> []
  /\ Forall (fun h => 0 < h) [101; 105; 103]
  /\ Forall (fun l => 0 < l) [99; 98; 100]
  /\ exists H L : Q,
       (isBreakout
          (detectBreakout (map Fin [101; 105; 103]) (map Fin [99; 98; 100])
                          (Fin 104.9)) = true
        <-> 0.998 * H < 104.9)
       /\ In H [101; 105; 103] /\ In L [99; 98; 100].
Proof.
  assert (H1 : [101; 105; 103] <> []) by discriminate.
  assert (H2 : [99; 98; 100] <> []) by discriminate.
  assert (H3 : Forall (fun h => 0 < h) [101; 105; 103])
    by (repeat constructor).
  assert (H4 : Forall (fun l => 0 < l) [99; 98; 100])
    by (repeat constructor).
  repeat (split; [assumption |]).
  destruct (detectBreakout_flags [101; 105; 103] [99; 98; 100] 104.9
              H1 H2 H3 H4) as (H & L & HinH & _ & HinL & _ & Hb & _).
  exists H, L. split; [exact Hb |]. split; [exact HinH | exact HinL].
Defined.

(** Without any bar there is no extreme to compare with: on an empty series
    of highs the near-high ratio is [NaN] and no breakout is flagged, and on
    an empty series of lows no breakdown, whatever the price. *)
Theorem detectBreakout_empty (price : num) (series : list num) :
  nearHigh (detectBreakout [] series price) = NaN
  /\ isBreakout (detectBreakout [] series price) = false
  /\ nearLow (detectBreakout series [] price) = NaN
  /\ isBreakdown (detectBreakout series [] price) = false.
Proof.
  unfold detectBreakout. cbn [nearHigh nearLow isBreakout isBreakdown].
  change (JS.slice_last 20 (@nil num)) with (@nil num).
  cbn [length Nat.eqb].
  change (JS.max_list []) with JS.NInf.
  change (JS.min_list []) with JS.PInf.
  destruct price; repeat split; reflexivity.
Qed.

(** ** Rounding, risk and confidence *)

Lemma pow10_pos (digits : nat) : 0 < inject_Z (10 ^ Z.of_nat digits).
Proof.
  change 0 with (inject_Z 0). rewrite <- Zlt_Qlt.
  apply Z.pow_pos_nonneg; lia.
Qed.

Lemma roundFixed_error (q : Q) (digits : nat) :
  exists r : Q,
    roundFixed (Fin q) digits = Fin r
    /\ Qabs (r - q) <= (1 # 2) / inject_Z (10 ^ Z.of_nat digits)
    /\ exists n : Z, r * inject_Z (10 ^ Z.of_nat digits) == inject_Z n.
Proof.
  unfold roundFixed, scaled_round.
  pose proof (pow10_pos digits) as HT.
  set (T := inject_Z (10 ^ Z.of_nat digits)) in *.
  set (n := Qfloor (Qabs q * T + (1 # 2))).
  pose proof (Qfloor_le (Qabs q * T + (1 # 2))) as Hlo.
  pose proof (Qlt_floor (Qabs q * T + (1 # 2))) as Hhi.
  fold n in Hlo, Hhi. rewrite inject_Z_plus in Hhi.
  change (inject_Z 1) with 1 in Hhi.
  assert (Eu : inject_Z n / T * T == inject_Z n) by (field; lra).
  assert (Ee : (1 # 2) / T * T == 1 # 2) by (field; lra).
  set (u := inject_Z n / T) in *. set (e := (1 # 2) / T) in *.
  eexists. split; [reflexivity |]. split.
  - apply Qabs_Qle_condition.
    destruct (JS.Qltb q 0) eqn:E; order_facts.
    + rewrite (Qabs_neg q) in Hlo, Hhi by lra. split; nra.
    + rewrite (Qabs_pos q) in Hlo, Hhi by lra. split; nra.
  - destruct (JS.Qltb q 0).
    + exists (- n)%Z. rewrite inject_Z_opp.
      setoid_replace (- u * T) with (- (u * T)) by ring. now rewrite Eu.
    + now exists n.
Qed.

(** Rounding to the tick size moves a finite price by at most half a tick:
    never by more than 0.05, by at most 0.005 % of a price of at least 1, and
    by at most 0.000005 below 1. *)
Theorem roundToTickSize_error (p : Q) :
  exists r : Q,
    roundToTickSize (Fin p) = Fin r
    /\ Qabs (r - p) <= 0.05
    /\ (1 <= p -> Qabs (r - p) <= 0.00005 * p)
    /\ (p < 1 -> Qabs (r - p) <= 0.000005).
Proof.
  unfold roundToTickSize. rewrite !ge_Fin.
  destruct (JS.le (Fin 1000) (Fin p)) eqn:E3;
    [| destruct (JS.le (Fin 100) (Fin p)) eqn:E2;
       [| destruct (JS.le (Fin 10) (Fin p)) eqn:E1;
          [| destruct (JS.le (Fin 1) (Fin p)) eqn:E0]]];
    order_facts;
    match goal with
    | |- context [roundFixed (Fin p) ?d] =>
        destruct (roundFixed_error p d) as (r & -> & Hr & _)
    end;
    exists r; (split; [reflexivity |]);
    match type of Hr with
    | _ <= ?b =>
        let v := eval vm_compute in b in
        assert (Eb : b == v) by reflexivity; rewrite Eb in Hr
    end;
    repeat split; intros; lra.
Qed.

(** On finite inputs the risk score is a finite multiple of 0.1 between 1
    and 10. *)
Theorem deriveRiskScore_range (vol funding oi vs1h vs15m : Q) :
  exists r : Q,
    deriveRiskScore (Fin vol) (Fin funding) (Fin oi) (Fin vs1h) (Fin vs15m)
    = Fin r
    /\ 1 <= r <= 10
    /\ exists n : Z, r * 10 == inject_Z n.
Proof.
  unfold deriveRiskScore.
  rewrite !abs_Fin, !mul_Fin, div_Fin by reflexivity.
  rewrite !min_Qmin, sub_Fin, max_Qmax, !gt_Fin, lt_Fin.
  set (volumeRisk :=
         if JS.Qltb 2.2 vs1h || JS.Qltb 2.2 vs15m then Fin 1.5
         else if JS.Qltb vs1h 1 then Fin 4 else Fin 1).
  assert (Hv : exists w : Q, volumeRisk = Fin w).
  { unfold volumeRisk.
    destruct (JS.Qltb 2.2 vs1h || JS.Qltb 2.2 vs15m);
      [| destruct (JS.Qltb vs1h 1)]; eexists; reflexivity. }
  destruct Hv as (w & ->). rewrite !add_Fin.
  match goal with
  | |- context [roundFixed (Fin ?raw) 1] =>
      destruct (roundFixed_error raw 1) as (x & -> & _ & (n & Hn))
  end.
  rewrite min_Qmin, max_Qmax. eexists. split; [reflexivity |].
  change (inject_Z (10 ^ Z.of_nat 1)) with 10 in Hn.
  split.
  - split.
    + apply Q.le_max_l.
    + apply Q.max_lub; [lra | apply Q.le_min_l].
  - destruct (Q.max_spec 1 (Qmin 10 x)) as [[_ E] | [_ E]].
    + destruct (Q.min_spec 10 x) as [[_ E'] | [_ E']].
      * exists 100%Z. rewrite E, E'. reflexivity.
      * exists n. now rewrite E, E'.
    + exists 10%Z. rewrite E. reflexivity.
Qed.

(** The confidence tier never drops when the composite score rises and the
    risk score falls. *)
Theorem deriveConfidence_monotone (c c' r r' : Q) :
  c <= c' -> r' <= r ->
  (confidence_rank (deriveConfidence (Fin c) (Fin r))
   <= confidence_rank (deriveConfidence (Fin c') (Fin r')))%nat.
Proof.
  intros Hc Hr. unfold deriveConfidence. rewrite !gt_Fin.
  destruct (JS.Qltb 90 c) eqn:E1, (JS.le (Fin r) (Fin 4)) eqn:E2,
           (JS.Qltb 70 c) eqn:E3, (JS.le (Fin r) (Fin 6)) eqn:E4,
           (JS.Qltb 90 c') eqn:E5, (JS.le (Fin r') (Fin 4)) eqn:E6,
           (JS.Qltb 70 c') eqn:E7, (JS.le (Fin r') (Fin 6)) eqn:E8;
    simpl; try lia; order_facts; lra.
Qed.

Lemma deriveConfidence_monotone_witness :
  72 <= 95 /\ 3 <= 5
  /\ (confidence_rank (deriveConfidence (Fin 72) (Fin 5))
      <= confidence_rank (deriveConfidence (Fin 95) (Fin 3)))%nat.
Proof.
  assert (H1 : 72 <= 95) by discriminate.
  assert (H2 : 3 <= 5) by discriminate.
  split; [exact H1 |]. split; [exact H2 |].
  exact (deriveConfidence_monotone 72 95 5 3 H1 H2).
Defined.

(** ** Trade levels *)

Lemma stopMultiplier_bounds (d : Direction) (v : Q) :
  exists m : Q,
    stopMultiplier d (Fin v) = Fin m
    /\ match d with
       | Long => 0.986 <= m <= 0.988
       | Short => 1.012 <= m <= 1.014
       end.
Proof.
  destruct d; unfold stopMultiplier; fin_eval;
    eexists; (split; [reflexivity |]); order_facts; split; lra.
Qed.

(** Before rounding the levels of a positive entry price are ordered: for a
    Long the stop lies below the entry and the three targets lie above it in
    rising order; for a Short the order is the reverse. *)
Theorem trade_levels_ordered (d : Direction) (p v : Q) :
  0 < p ->
  exists stop tp1 tp2 tp3 : Q,
    JS.mul (Fin p) (stopMultiplier d (Fin v)) = Fin stop
    /\ map (fun m => JS.mul (Fin p) m) (tpMultipliers d)
       = [Fin tp1; Fin tp2; Fin tp3]
    /\ match d with
       | Long => stop < p /\ p < tp1 /\ tp1 < tp2 /\ tp2 < tp3
       | Short => tp3 < tp2 /\ tp2 < tp1 /\ tp1 < p /\ p < stop
       end.
Proof.
  intros Hp. destruct (stopMultiplier_bounds d v) as (m & -> & Hm).
  rewrite mul_Fin.
  destruct d; simpl map; rewrite !mul_Fin;
    do 4 eexists; (split; [reflexivity |]); (split; [reflexivity |]);
    repeat split; nra.
Qed.

Lemma trade_levels_ordered_witness :
  0 < 129
  /\ exists stop tp1 tp2 tp3 : Q,
       JS.mul (Fin 129) (stopMultiplier Short (Fin 3)) = Fin stop
       /\ map (fun m => JS.mul (Fin 129) m) (tpMultipliers Short)
          = [Fin tp1; Fin tp2; Fin tp3]
       /\ tp3 < tp2 /\ tp2 < tp1 /\ tp1 < 129 /\ 129 < stop.
Proof.
  assert (Hp : 0 < 129) by reflexivity.
  split; [exact Hp |].
  exact (trade_levels_ordered Short 129 3 Hp).
Defined.

(** ** Terms capped from above *)

Lemma capped_weaken (c c' : Q) (x : num) :
  capped c x -> c <= c' -> capped c' x.
Proof.
  destruct x; simpl; auto. intros H1 H2. lra.
Qed.

Lemma capped_Fin (q : Q) : capped q (Fin q).
Proof. simpl. lra. Qed.

Lemma min_capped (x : num) (c : Q) : capped c (JS.min x (Fin c)).
Proof.
  destruct x as [a | | |]; try exact I.
  - rewrite min_Fin. destruct (JS.Qltb c a) eqn:E; order_facts; simpl; lra.
  - change (JS.min JS.PInf (Fin c)) with (Fin c). simpl. lra.
Qed.

Lemma add_capped (a b : Q) (x y : num) :
  capped a x -> capped b y -> capped (a + b) (JS.add x y).
Proof.
  destruct x, y; unfold JS.add; simpl; try tauto. intros H1 H2. lra.
Qed.

Lemma sub_capped (c : Q) (x y : num) :
  capped c x -> floored y -> capped c (JS.sub x y).
Proof.
  destruct x, y; unfold JS.sub, JS.add, JS.neg; simpl; try tauto.
  intros H1 H2. lra.
Qed.

Lemma penalty_floored (x : num) :
  floored (JS.mul (JS.max x (Fin 0)) (Fin 120)).
Proof.
  destruct x as [a | | |]; try exact I.
  - rewrite max_Qmax, mul_Fin. simpl.
    pose proof (Q.le_max_r a 0). lra.
  - change (JS.max JS.NInf (Fin 0)) with (Fin 0). rewrite mul_Fin.
    simpl. lra.
Qed.

Lemma compositeSum_capped (p : ScoreParams) : capped 158.4 (compositeSum p).
Proof.
  unfold compositeSum.
  destruct (JS.eq (JS.sign (cp_emaTrend1h p)) (JS.sign (cp_emaTrend4h p))),
           (JS.eq (JS.sign (cp_macdHist1h p)) (JS.sign (cp_macdHist4h p))),
           (JS.gt (cp_rsi1h p) (Fin 55) && JS.gt (cp_rsi4h p) (Fin 52)
            || JS.lt (cp_rsi1h p) (Fin 45) && JS.lt (cp_rsi4h p) (Fin 48)),
           (isBreakout (cp_breakout p)),
           (isBreakout (cp_longerBreakout p));
    try change (Qeq_bool 1 0) with false;
    try change (Qeq_bool 0 0) with true;
    cbv iota; rewrite ?add_Fin, ?mul_Fin;
    (eapply capped_weaken;
     [ apply sub_capped;
       [ repeat first [ apply add_capped | apply min_capped
                      | apply capped_Fin ]
       | apply penalty_floored ]
     | vm_compute; discriminate ]).
Qed.

Lemma buildCompositeScore_bounded_aux (p : ScoreParams) :
  exists s : Q, buildCompositeScore p = Fin s /\ s <= 158.4.
Proof.
  unfold buildCompositeScore.
  pose proof (compositeSum_capped p) as H.
  destruct (compositeSum p) as [s | | |]; simpl in *.
  - now exists s.
  - contradiction.
  - exists 0. split; [reflexivity | lra].
  - exists 0. split; [reflexivity | lra].
Qed.

(** Whatever the parameters, [NaN] and infinities included, the composite
    score is finite and at most 158.4: every positive term is capped, and a
    sum that is not finite is replaced by 0; the sum itself is never
    [+Infinity]. *)
Theorem buildCompositeScore_bounded (p : ScoreParams) :
  compositeSum p <> JS.PInf
  /\ exists s : Q, buildCompositeScore p = Fin s /\ s <= 158.4.
Proof.
  split.
  - intros E. pose proof (compositeSum_capped p) as H.
    rewrite E in H. exact H.
  - apply buildCompositeScore_bounded_aux.
Qed.

(** ** Pre-screening and the shortlist *)

(** The pre-score is the sum of four capped terms: for every snapshot and
    whatever [Math.log10] returns it is never above 85 (nor [+Infinity]); and
    it is finite when the snapshot and the logarithm are: the divisions by
    the low price and by the range are guarded. *)
Theorem preScoreTicker_bounded (log10 : num -> num) :
  (forall ticker : BaseTickerSnapshot,
      capped 85 (preScoreTicker log10 ticker))
  /\ (forall (sym : string) (last change quote base trades high low vwap : Q)
             (lg : Q),
        log10 (Fin (quote + 1)) = Fin lg ->
        exists s : Q,
          preScoreTicker log10
            (finite_snapshot sym last change quote base trades high low vwap)
          = Fin s
          /\ s <= 85).
Proof.
  split.
  - intros ticker. unfold preScoreTicker.
    eapply capped_weaken;
      [ repeat first [ apply add_capped | apply min_capped ]
      | vm_compute; discriminate ].
  - intros sym last change quote base trades high low vwap lg Hlg.
    unfold preScoreTicker, finite_snapshot.
    cbn [priceChangePercent quoteVolume lowPrice highPrice].
    rewrite add_Fin, Hlg, !abs_Fin, !mul_Fin, gt_Fin.
    set (range := if JS.Qltb 0 low
                  then JS.mul (JS.div (JS.sub (Fin high) (Fin low)) (Fin low))
                              (Fin 100)
                  else Fin 0).
    assert (Hr : exists r : Q, range = Fin r).
    { unfold range. destruct (JS.Qltb 0 low) eqn:E; order_facts.
      - rewrite sub_Fin, div_Fin, mul_Fin by (apply Qeqb_false; lra).
        eexists. reflexivity.
      - eexists. reflexivity. }
    destruct Hr as (r & ->).
    rewrite max_Qmax.
    assert (Hm : 1 <= Qmax r 1) by apply Q.le_max_r.
    rewrite div_Fin by (apply Qeqb_false; lra).
    rewrite !mul_Fin, !min_Qmin, !add_Fin.
    eexists. split; [reflexivity |].
    cap_terms. lra.
Qed.

Lemma in_firstn {A : Type} (n : nat) (x : A) (l : list A) :
  In x (firstn n l) -> In x l.
Proof.
  intros H. rewrite <- (firstn_skipn n l). apply in_or_app. now left.
Qed.

Lemma shortlist_incl (log10 : num -> num) (tickers : list BaseTickerSnapshot)
  (t : BaseTickerSnapshot) :
  In t (shortlist log10 tickers) -> In t tickers.
Proof.
  unfold shortlist. intros H.
  apply in_map_iff in H. destruct H as ([t' s] & <- & H).
  apply in_firstn in H.
  apply (Permutation_in _ (sort_perm _ _)) in H.
  apply in_map_iff in H. destruct H as (t0 & E & H0).
  now injection E as <- _.
Qed.

(** The shortlist bounds the deep evaluation: it has at most 25 tickers, all
    taken from the pre-screened ones, and it is all of them, reordered, when
    there are at most 25. *)
Theorem shortlist_bounded (log10 : num -> num)
  (tickers : list BaseTickerSnapshot) :
  (length (shortlist log10 tickers) <= 25)%nat
  /\ incl (shortlist log10 tickers) tickers
  /\ ((length tickers <= 25)%nat ->
      Permutation (shortlist log10 tickers) tickers).
Proof.
  split; [| split].
  - unfold shortlist. rewrite length_map. apply firstn_le_length.
  - intros t. apply shortlist_incl.
  - intros Hlen. unfold shortlist, MAX_DEEP_SYMBOLS.
    rewrite firstn_all2 by (now rewrite sort_length, length_map).
    rewrite (Permutation_map fst (sort_perm _ _)).
    rewrite map_map. simpl. now rewrite map_id.
Qed.

(** ** What the route returns *)

Lemma evaluated_in (sqrtQ : Q -> Q) (market : Market)
  (tickers : list BaseTickerSnapshot) (e : EvaluatedSymbol) :
  In e (evaluated sqrtQ market tickers) ->
  55 <= score_of e
  /\ exists ticker,
       In ticker tickers
       /\ evaluateSymbol sqrtQ market ticker = Resolved (Some e).
Proof.
  unfold evaluated. intros H.
  apply (Permutation_in _ (sort_perm _ _)), filter_In in H.
  destruct H as [Hin Hq]. apply in_candidates in Hin.
  destruct Hin as (t & Ht & E). split.
  - apply evaluateSymbol_some in E. destruct E as (_ & Hf & _).
    now apply (qualifies_spec e Hf).
  - now exists t.
Qed.

(** Every entry the route returns as a mover or among the strongest has a
    composite score of at least 55 and is the evaluation of a ticker of the
    batch whose symbol is in the list of tradable symbols and whose quote
    volume exceeds 2,000,000; movers are at most 5, the strongest at most
    3. *)
Theorem GET_entries (sqrtQ : Q -> Q) (log10 : num -> num) (market : Market) :
  match GET sqrtQ log10 market with
  | Json movers strongest _ _ =>
      (length movers <= 5)%nat /\ (length strongest <= 3)%nat
      /\ forall e, In e movers \/ In e strongest ->
           55 <= score_of e
           /\ exists symbols tickers ticker,
                fetchPerpetualSymbols market = Resolved symbols
                /\ fetchTickers market = Resolved tickers
                /\ In ticker tickers
                /\ In (t_symbol ticker) symbols
                /\ es_symbol e = t_symbol ticker
                /\ JS.gt (t_quoteVolume ticker) (Fin 2000000) = true
  | ErrorJson _ _ => True
  end.
Proof.
  unfold GET.
  destruct (fetchPerpetualSymbols market) as [symbols |]; [| exact I].
  destruct (fetchTickers market) as [tickers |]; [| exact I].
  set (filtered :=
         filter (fun t => JS.gt (quoteVolume t) (Fin 2000000))
           (map normalizeTicker
              (filter (fun t => existsb (String.eqb (t_symbol t)) symbols)
                      tickers))).
  assert (Hnone : (0 <= 5)%nat /\ (0 <= 3)%nat
                  /\ forall e : EvaluatedSymbol, In e [] \/ In e [] ->
                       55 <= score_of e
                       /\ exists symbols0 tickers0 ticker,
                            Resolved symbols = Resolved symbols0
                            /\ Resolved tickers = Resolved tickers0
                            /\ In ticker tickers0
                            /\ In (t_symbol ticker) symbols0
                            /\ es_symbol e = t_symbol ticker
                            /\ JS.gt (t_quoteVolume ticker) (Fin 2000000)
                               = true).
  { split; [lia |]. split; [lia |]. intros e [[] | []]. }
  destruct (length filtered =? 0)%nat; [exact Hnone |].
  unfold respond.
  destruct (length (evaluated sqrtQ market (shortlist log10 filtered)) =? 0)%nat;
    [exact Hnone |].
  split; [apply firstn_le_length |]. split; [apply firstn_le_length |].
  intros e He.
  assert (Hin : In e (evaluated sqrtQ market (shortlist log10 filtered))).
  { destruct He as [He | He]; now apply in_firstn in He. }
  apply evaluated_in in Hin. destruct Hin as (Hscore & t & Ht & E).
  split; [assumption |].
  apply evaluateSymbol_some in E. destruct E as (Es & _ & _).
  apply shortlist_incl in Ht. unfold filtered in Ht.
  apply filter_In in Ht. destruct Ht as [Ht Hvol].
  apply in_map_iff in Ht. destruct Ht as (t0 & <- & Ht0).
  apply filter_In in Ht0. destruct Ht0 as [Ht0 Htr].
  apply existsb_exists in Htr. destruct Htr as (s & Hs & Eq).
  apply String.eqb_eq in Eq.
  exists symbols, tickers, t0.
  repeat split; try assumption.
  now rewrite Eq.
Qed.

(** ** The record of an evaluation *)

Lemma deriveConfidence_tiers (composite riskScore : num) :
  (deriveConfidence composite riskScore = High ->
   JS.gt composite (Fin 90) = true /\ JS.le riskScore (Fin 4) = true)
  /\ (deriveConfidence composite riskScore = Medium ->
      JS.gt composite (Fin 70) = true /\ JS.le riskScore (Fin 6) = true).
Proof.
  unfold deriveConfidence.
  destruct (JS.gt composite (Fin 90)), (JS.le riskScore (Fin 4)),
           (JS.gt composite (Fin 70)), (JS.le riskScore (Fin 6));
    simpl; split; intros H; try discriminate H; now split.
Qed.

(** Every record [evaluateSymbol] produces carries the symbol of its ticker
    and three take-profit levels, its composite score is finite and at most
    158.4, and its confidence tier is backed by its own scores: High only
    with a score above 90 and a risk of at most 4, Medium only with a score
    above 70 and a risk of at most 6. *)
Theorem evaluateSymbol_record (sqrtQ : Q -> Q) (market : Market)
  (ticker : BaseTickerSnapshot) :
  match evaluateSymbol sqrtQ market ticker with
  | Resolved (Some e) =>
      es_symbol e = symbol ticker
      /\ length (takeProfits e) = 3%nat
      /\ (exists s : Q, compositeScore e = Fin s /\ s <= 158.4)
      /\ (confidence e = High ->
          90 < score_of e /\ JS.le (riskScore e) (Fin 4) = true)
      /\ (confidence e = Medium ->
          70 < score_of e /\ JS.le (riskScore e) (Fin 6) = true)
  | _ => True
  end.
Proof.
  destruct (evaluateSymbol sqrtQ market ticker) as [[e |] |] eqn:H;
    try exact I.
  unfold evaluateSymbol in H.
  apply bind_resolved in H. destruct H as (k1 & _ & H).
  apply bind_resolved in H. destruct H as (k4 & _ & H).
  apply bind_resolved in H. destruct H as (k15 & _ & H).
  apply bind_resolved in H. destruct H as (pr & _ & H).
  apply bind_resolved in H. destruct H as (oi & _ & H).
  destruct ((length k1 <? 30) || (length k4 <? 30))%nat; [discriminate |].
  injection H as <-.
  unfold score_of.
  cbn [es_symbol takeProfits compositeScore confidence riskScore].
  match goal with
  | |- context [buildCompositeScore ?p] =>
      destruct (buildCompositeScore_bounded_aux p) as (s & Es & Hs);
      rewrite Es
  end.
  split; [reflexivity |]. split.
  { rewrite length_map.
    destruct (direction _ _ _); reflexivity. }
  split; [now exists s |].
  match goal with
  | |- context [deriveConfidence ?c ?r] =>
      destruct (deriveConfidence_tiers c r) as [Hhigh Hmed]
  end.
  split; intros Hc.
  - destruct (Hhigh Hc) as [H1 H2]. rewrite gt_Fin in H1.
    order_facts. now split.
  - destruct (Hmed Hc) as [H1 H2]. rewrite gt_Fin in H1.
    order_facts. now split.
Qed.

(** ** The relative strength index reads differences only *)

Lemma le_Fin_same (a a' b b' : Q) :
  a == a' -> b == b' -> JS.le (Fin a) (Fin b) = JS.le (Fin a') (Fin b').
Proof.
  intros Ha Hb.
  destruct (JS.le (Fin a) (Fin b)) eqn:E, (JS.le (Fin a') (Fin b')) eqn:E';
    try reflexivity; order_facts; lra.
Qed.

Lemma eq_zero_same (x y : num) : x =~ y -> JS.eq x JS.zero = JS.eq y JS.zero.
Proof.
  destruct x, y; simpl; try contradiction; try reflexivity.
  intros H. unfold JS.eq, JS.zero. now apply Qeq_bool_same.
Qed.

Lemma delta_at_shift (c : Q) (qs : list Q) (i : nat) :
  (i < length qs)%nat ->
  exists d d' : Q,
    delta_at (map Fin (map (Qplus c) qs)) i = Fin d'
    /\ delta_at (map Fin qs) i = Fin d /\ d' == d.
Proof.
  intros Hi. rewrite !delta_at_Fin by (rewrite ?length_map; lia).
  eexists; eexists. split; [reflexivity |]. split; [reflexivity |].
  rewrite !(nth_indep (map (Qplus c) qs) 0 (c + 0))
    by (rewrite length_map; lia).
  rewrite !(map_nth (Qplus c)). ring.
Qed.

Lemma fold_left_related {A B : Type} (R : A -> A -> Prop) (P : B -> Prop)
  (f g : A -> B -> A) (l : list B) (a a' : A) :
  (forall x x' b, R x x' -> P b -> R (f x b) (g x' b)) ->
  Forall P l -> R a a' -> R (fold_left f l a) (fold_left g l a').
Proof.
  intros Hfg Hl. revert a a'.
  induction Hl as [| b l Hb Hl IH]; intros a a' Ha; simpl; auto.
Qed.

Lemma rsi_sum_shift (c : Q) (qs : list Q) (acc acc' : num * num) (i : nat) :
  same_pair acc' acc -> (i < length qs)%nat ->
  same_pair (rsi_sum (map Fin (map (Qplus c) qs)) acc' i)
            (rsi_sum (map Fin qs) acc i).
Proof.
  intros [Hg Hl] Hi. destruct acc as [g l], acc' as [g' l'].
  simpl in Hg, Hl. unfold rsi_sum, JS.zero.
  destruct (delta_at_shift c qs i Hi) as (d & d' & -> & -> & Hd).
  rewrite !ge_Fin, (le_Fin_same 0 0 d' d (Qeq_refl 0) Hd).
  destruct (JS.le (Fin 0) (Fin d)); split; simpl; try assumption.
  - apply add_same; [assumption | exact Hd].
  - apply sub_same; [assumption | exact Hd].
Qed.

Lemma rsi_smooth_shift (c : Q) (qs : list Q) (period : nat)
  (acc acc' : num * num) (i : nat) :
  same_pair acc' acc -> (i < length qs)%nat ->
  same_pair (rsi_smooth (map Fin (map (Qplus c) qs)) period acc' i)
            (rsi_smooth (map Fin qs) period acc i).
Proof.
  intros [Hg Hl] Hi. destruct acc as [g l], acc' as [g' l'].
  simpl in Hg, Hl. unfold rsi_smooth, JS.zero.
  destruct (delta_at_shift c qs i Hi) as (d & d' & -> & -> & Hd).
  rewrite !ge_Fin, (le_Fin_same 0 0 d' d (Qeq_refl 0) Hd).
  destruct (JS.le (Fin 0) (Fin d)); split; simpl;
    repeat first [ apply div_same | apply sub_same | apply add_same
                 | apply mul_same | assumption | exact Hd
                 | apply same_refl ].
Qed.

(** [rsi] reads the values through their differences only: adding one
    constant to every finite value leaves the result unchanged, for every
    period. *)
Theorem rsi_shift_invariant (period : nat) (c : Q) (qs : list Q) :
  rsi (map Fin (map (Qplus c) qs)) period =~ rsi (map Fin qs) period.
Proof.
  unfold rsi. rewrite !length_map.
  destruct (length qs <=? period)%nat eqn:E; [apply same_refl |].
  apply Nat.leb_gt in E.
  assert (Havg : same_pair
                   (rsi_averages (map Fin (map (Qplus c) qs)) period)
                   (rsi_averages (map Fin qs) period)).
  { unfold rsi_averages. rewrite !length_map.
    assert (S1 : same_pair
                   (fold_left (rsi_sum (map Fin (map (Qplus c) qs)))
                              (seq 1 period) (JS.zero, JS.zero))
                   (fold_left (rsi_sum (map Fin qs))
                              (seq 1 period) (JS.zero, JS.zero))).
    { apply (fold_left_related same_pair (fun i => (i < length qs)%nat)).
      - intros x x' i Hx Hi. now apply rsi_sum_shift.
      - apply Forall_forall. intros i Hi. apply in_seq in Hi. lia.
      - split; apply same_refl. }
    destruct (fold_left (rsi_sum (map Fin (map (Qplus c) qs))) _ _)
      as [g' l'].
    destruct (fold_left (rsi_sum (map Fin qs)) _ _) as [g l].
    destruct S1 as [Hg Hl]. simpl in Hg, Hl.
    apply (fold_left_related same_pair (fun i => (i < length qs)%nat)).
    - intros x x' i Hx Hi. now apply rsi_smooth_shift.
    - apply Forall_forall. intros i Hi. apply in_seq in Hi. lia.
    - split; simpl; (apply div_same; [assumption | apply same_refl]). }
  destruct (rsi_averages (map Fin (map (Qplus c) qs)) period) as [g' l'].
  destruct (rsi_averages (map Fin qs) period) as [g l].
  destruct Havg as [Hg Hl]. simpl in Hg, Hl.
  rewrite (eq_zero_same l' l Hl).
  destruct (JS.eq l JS.zero); [apply same_refl |].
  repeat first [ apply sub_same | apply div_same | apply add_same
               | apply same_refl | assumption ].
Qed.

(** ** The reason of an evaluation *)

Lemma append_empty (s : string) : (s ++ "")%string = s.
Proof.
  induction s as [| a s IH]; simpl; [reflexivity | now rewrite IH].
Qed.

Lemma join_head (sep p : string) (rest : list string) :
  exists tail : string, join sep (p :: rest) = (p ++ tail)%string.
Proof.
  destruct rest as [| q rest].
  - exists ""%string. simpl. now rewrite append_empty.
  - eexists. reflexivity.
Qed.

(** Every reason opens with the alignment sentence of its direction,
    whatever the other readings are. *)
Theorem buildReason_headline (d : Direction)
  (volSpike1h volSpike15m macdHist1h macdHist4h rsi1h rsi4h : num)
  (breakout longerBreakout : Breakout) (oiChangePct : num) :
  exists tail : string,
    buildReason d volSpike1h volSpike15m macdHist1h macdHist4h rsi1h rsi4h
                breakout longerBreakout oiChangePct
    = (headline d ++ tail)%string.
Proof.
  unfold buildReason. cbn [app].
  match goal with
  | |- context [join ?sep (?p :: ?rest)] =>
      destruct (join_head sep p rest) as (tail & ->)
  end.
  exists tail. destruct d; reflexivity.
Qed.

(** ** The shortlist takes the best pre-scores *)




